(** * Keccak-256 (Ethereum variant): shallow embedding of [keccak256.py]

    Python integers are unbounded, so lanes and lengths are [Z]; the
    bit operators [>>], [<<], [&], [|], [^], [~] are [Z.shiftr],
    [Z.shiftl], [Z.land], [Z.lor], [Z.lxor], [Z.lnot].  Lists of ints
    are [list Z]; [bytes] objects are [list byte].  Methods that can
    raise return a [result]; methods that mutate [self] return the new
    value of the object.  The facade [KeccakHash] lives in a store of
    sponge objects, so that [copy] (a deep copy) yields a distinct
    object. *)

From Stdlib Require Import ZArith Lia Ascii String.
From Stdlib Require Import Init.Byte.
From stdpp Require Import base numbers list strings.

Local Open Scope Z_scope.

(** ** Python runtime: exceptions, lists, slices *)

Module Py.

Inductive exn : Set := AssertionError | ValueError.

(** Outcome of a call: a value, a raised exception, [OutOfFuel]
    when the bound put on a [while] loop is exhausted (the Python
    loop would still be running), or [Dangling] when a reference
    names no object of the store (no Python run does that). *)
Inductive result (A : Type) : Type :=
| Ok (a : A)
| Raise (e : exn)
| OutOfFuel
| Dangling.
Global Arguments Ok {A} a.
Global Arguments Raise {A} e.
Global Arguments OutOfFuel {A}.
Global Arguments Dangling {A}.

Global Instance result_ret : MRet result := fun A a => Ok a.
Global Instance result_bind : MBind result := fun A B f m =>
  match m with
  | Ok a => f a
  | Raise e => Raise e
  | OutOfFuel => OutOfFuel
  | Dangling => Dangling
  end.

(** [assert c] *)
Definition assert (c : bool) : result unit :=
  if c then Ok tt else Raise AssertionError.

(** [len(l)] *)
Definition len {A} (l : list A) : Z := Z.of_nat (length l).

(** [range(n)] *)
Definition range (n : Z) : list Z := seqZ 0 n.

(** [range(0, stop, 8)] *)
Definition range8 (stop : Z) : list Z :=
  (fun k => 8 * k) <$> seqZ 0 ((stop + 7) / 8).

(** [l[i]] for an index [0 <= i]; every index of the program is a
    loop variable of a [range] or a remainder modulo 5. *)
Definition index {A} `{!Inhabited A} (l : list A) (i : Z) : A :=
  l !!! Z.to_nat i.

(** A slice bound [n] of [l[:n]] or [l[n:]]: negative bounds count
    from the end, and everything is clipped to the list. *)
Definition bound {A} (l : list A) (n : Z) : nat :=
  Z.to_nat (if n <? 0 then len l + n else n).

(** [l[:n]] *)
Definition upto {A} (n : Z) (l : list A) : list A := take (bound l n) l.

(** [l[n:]] *)
Definition from {A} (n : Z) (l : list A) : list A := drop (bound l n) l.

(** [l[i:j]] for a counter [0 <= i] *)
Definition slice {A} (l : list A) (i j : nat) : list A :=
  take (j - i) (drop i l).

(** [l[i:j] = v] for a counter [0 <= i] *)
Definition slice_assign {A} (l : list A) (i j : nat) (v : list A) : list A :=
  take i l ++ v ++ drop (Nat.max i j) l.

(** [[x] * n]; a negative count gives the empty list. *)
Definition times {A} (x : A) (n : Z) : list A := replicate (Z.to_nat n) x.

(** [reduce(xor, l)] on a non-empty list. *)
Definition reduce_xor (l : list Z) : Z :=
  match l with
  | [] => 0
  | v :: l' => foldl Z.lxor v l'
  end.

End Py.
Import Py.

Notation "l .[ i ]" := (index l i) (at level 1, left associativity, format "l .[ i ]").

(** ** Constants and helpers *)

Definition RoundConstants : list Z :=
  [ 0x0000000000000001; 0x0000000000008082; 0x800000000000808A; 0x8000000080008000;
    0x000000000000808B; 0x0000000080000001; 0x8000000080008081; 0x8000000000008009;
    0x000000000000008A; 0x0000000000000088; 0x0000000080008009; 0x000000008000000A;
    0x000000008000808B; 0x800000000000008B; 0x8000000000008089; 0x8000000000008003;
    0x8000000000008002; 0x8000000000000080; 0x000000000000800A; 0x800000008000000A;
    0x8000000080008081; 0x8000000000008080; 0x0000000080000001; 0x8000000080008008 ].

Definition RotationConstants : list (list Z) :=
  [ [0; 1; 62; 28; 27];
    [36; 44; 6; 55; 20];
    [3; 10; 43; 25; 39];
    [41; 45; 15; 21; 8];
    [18; 2; 61; 56; 14] ].

Definition Masks : list Z := (fun i => Z.shiftl 1 i - 1) <$> range 65.

Definition bits2bytes (x : Z) : Z := (x + 7) / 8.

Definition rol (value left bits : Z) : Z :=
  let top := Z.shiftr value (bits - left) in
  let bot := Z.shiftl (Z.land value (Masks.[bits - left])) left in
  Z.lor bot top.

Definition multirate_padding (used_bytes align_bytes : Z) : list Z :=
  let padlen := align_bytes - used_bytes in
  let padlen := if padlen =? 0 then align_bytes else padlen in
  if padlen =? 1 then [0x81]
  else [0x01] ++ times 0x00 (padlen - 2) ++ [0x80].

(** ** The state: a 5x5 matrix of lanes *)

(** [a[x][y] = v]; the rows of a matrix are distinct list objects
    ([zero] builds each row afresh), so the in-place assignment is an
    update of one cell. *)
Definition set2 (a : list (list Z)) (x y v : Z) : list (list Z) :=
  <[Z.to_nat x := <[Z.to_nat y := v]> (a.[x])]> a.

Module KeccakState.

Definition W : Z := 5.
Definition H : Z := 5.
Definition rangeW : list Z := range W.
Definition rangeH : list Z := range H.

Record t : Type := mk {
  bitrate : Z;
  b : Z;
  bitrate_bytes : Z;
  lanew : Z;
  s : list (list Z)
}.

Definition set_s (self : t) (m : list (list Z)) : t :=
  mk (bitrate self) (b self) (bitrate_bytes self) (lanew self) m.

Definition zero : list (list Z) := (fun _ => times 0 W) <$> rangeH.

Definition lane2bytes (s w : Z) : list Z :=
  (fun b => Z.land (Z.shiftr s b) 0xFF) <$> range8 w.

Definition bytes2lane (bb : list Z) : Z :=
  foldl (fun r b => Z.lor (Z.shiftl r 8) b) 0 (reverse bb).

(** [bytes(bb)]: every element must be in [range(256)]. *)
Definition byte_of_int (v : Z) : result byte :=
  if (0 <=? v) && (v <? 256) then
    match Byte.of_N (Z.to_N v) with
    | Some c => Ok c
    | None => Raise ValueError
    end
  else Raise ValueError.

Definition ilist2bytes (bb : list Z) : result (list byte) :=
  mapM byte_of_int bb.

Definition init (bitrate b : Z) : result t :=
  assert (bitrate mod 8 =? 0);;
  Ok (mk bitrate b (bits2bytes bitrate) (b / 25) zero).

(** Body of the inner loop of [absorb], at row [y] and column [x];
    the loop state is the matrix and the counter [i]. *)
Definition absorb_lane (block : list Z) (y : Z)
    (acc : list (list Z) * nat) (x : Z) : list (list Z) * nat :=
  let '(m, i) := acc in
  let lane_bytes := slice block i (i + 8) in
  (set2 m x y (Z.lxor m.[x].[y] (bytes2lane lane_bytes)), (i + 8)%nat).

(** [block += ...] extends the caller's list in place; both callers
    pass a list built for the call (a slice, a concatenation). *)
Definition absorb (self : t) (block : list Z) : result t :=
  assert (len block =? bitrate_bytes self);;
  let block := block ++ times 0 (bits2bytes (b self - bitrate self)) in
  let '(m, _) :=
    foldl (fun acc y => foldl (absorb_lane block y) acc rangeW)
          (s self, 0%nat) rangeH in
  Ok (set_s self m).

Definition get_lane (self : t) (y : Z)
    (acc : list Z * nat) (x : Z) : list Z * nat :=
  let '(out, i) := acc in
  let v := lane2bytes (s self).[x].[y] (lanew self) in
  (slice_assign out i (i + 8) v, (i + 8)%nat).

Definition get_bytes (self : t) : list Z :=
  let out := times 0 (bits2bytes (b self)) in
  let '(out, _) :=
    foldl (fun acc y => foldl (get_lane self y) acc rangeW)
          (out, 0%nat) rangeH in
  out.

Definition squeeze (self : t) : list Z :=
  let full := get_bytes self in
  upto (bitrate_bytes self) full.

Definition set_lane (bb : list Z) (y : Z)
    (acc : list (list Z) * nat) (x : Z) : list (list Z) * nat :=
  let '(m, i) := acc in
  (set2 m x y (bytes2lane (slice bb i (i + 8))), (i + 8)%nat).

Definition set_bytes (self : t) (bb : list Z) : t :=
  let '(m, _) :=
    foldl (fun acc y => foldl (set_lane bb y) acc rangeW)
          (s self, 0%nat) rangeH in
  set_s self m.

End KeccakState.

(** ** The permutation Keccak-f *)

Section Round.
(** The values [keccak_round] reads from the enclosing [state]. *)
Variable state : KeccakState.t.
Let w := KeccakState.W.
Let h := KeccakState.H.
Let rangew := KeccakState.rangeW.
Let rangeh := KeccakState.rangeH.
Let lanew := KeccakState.lanew state.

Definition theta_column (c : list Z)
    (acc : list (list Z) * list Z) (x : Z) : list (list Z) * list Z :=
  let '(a, d) := acc in
  let d := <[Z.to_nat x := Z.lxor c.[(x - 1) mod w] (rol c.[(x + 1) mod w] 1 lanew)]> d in
  (foldl (fun a y => set2 a x y (Z.lxor a.[x].[y] d.[x])) a rangeh, d).

Definition theta (a : list (list Z)) : list (list Z) :=
  let c := (fun x => reduce_xor a.[x]) <$> rangew in
  let d := times 0 w in
  fst (foldl (theta_column c) (a, d) rangew).

Definition rho_pi (a : list (list Z)) : list (list Z) :=
  let b := KeccakState.zero in
  foldl (fun b x =>
    foldl (fun b y =>
      set2 b (y mod w) ((2 * x + 3 * y) mod h)
           (rol a.[x].[y] RotationConstants.[y].[x] lanew))
      b rangeh)
    b rangew.

Definition chi (a b : list (list Z)) : list (list Z) :=
  foldl (fun a x =>
    foldl (fun a y =>
      set2 a x y (Z.lxor b.[x].[y]
                    (Z.land (Z.lnot b.[(x + 1) mod w].[y]) b.[(x + 2) mod w].[y])))
      a rangeh)
    a rangew.

Definition iota (a : list (list Z)) (rc : Z) : list (list Z) :=
  set2 a 0 0 (Z.lxor a.[0].[0] rc).

Definition keccak_round (a : list (list Z)) (rc : Z) : list (list Z) :=
  let a := theta a in
  let b := rho_pi a in
  let a := chi a b in
  iota a rc.
End Round.

(** [int(log(lanew, 2))] is [Z.log2 lanew] when [lanew] is 64, the
    only lane width of the program: the quotient of the two float
    logarithms is then exactly 6.0. *)
Definition keccak_f (state : KeccakState.t) : KeccakState.t :=
  let nr := 12 + 2 * Z.log2 (KeccakState.lanew state) in
  KeccakState.set_s state
    (foldl (fun a ir => keccak_round state a RoundConstants.[ir])
           (KeccakState.s state) (range nr)).

(** ** The sponge *)

Module KeccakSponge.

Record t : Type := mk {
  state : KeccakState.t;
  padfn : Z -> Z -> list Z;
  permfn : KeccakState.t -> KeccakState.t;
  buffer : list Z
}.

Definition set_state (self : t) (st : KeccakState.t) : t :=
  mk st (padfn self) (permfn self) (buffer self).

Definition set_buffer (self : t) (buf : list Z) : t :=
  mk (state self) (padfn self) (permfn self) buf.

Definition init (bitrate width : Z) (padfn : Z -> Z -> list Z)
    (permfn : KeccakState.t -> KeccakState.t) : result t :=
  st ← KeccakState.init bitrate width;
  Ok (mk st padfn permfn []).

Definition absorb_block (self : t) (block_bytes : list Z) : result t :=
  assert (len block_bytes =? KeccakState.bitrate_bytes (state self));;
  st ← KeccakState.absorb (state self) block_bytes;
  Ok (set_state self (permfn self st)).

(** The [while] loop of [absorb], bounded by [fuel] iterations. *)
Fixpoint absorb_loop (fuel : nat) (self : t) : result t :=
  if len (buffer self) >=? KeccakState.bitrate_bytes (state self) then
    match fuel with
    | O => OutOfFuel
    | S fuel =>
        self ← absorb_block self
                 (upto (KeccakState.bitrate_bytes (state self)) (buffer self));
        absorb_loop fuel
          (set_buffer self
             (from (KeccakState.bitrate_bytes (state self)) (buffer self)))
    end
  else Ok self.

(** Each iteration takes at least one byte off the buffer when
    [bitrate_bytes] is positive, so the length of the buffer bounds
    the number of iterations. *)
Definition absorb (self : t) (data_bytes : list Z) : result t :=
  let self := set_buffer self (buffer self ++ data_bytes) in
  absorb_loop (length (buffer self)) self.

Definition absorb_final (self : t) : result t :=
  let padded :=
    buffer self
    ++ padfn self (len (buffer self)) (KeccakState.bitrate_bytes (state self)) in
  self ← absorb_block self padded;
  Ok (set_buffer self []).

Definition squeeze_once (self : t) : list Z * t :=
  let out_block := KeccakState.squeeze (state self) in
  (out_block, set_state self (permfn self (state self))).

(** The [while] loop of [squeeze], bounded by [fuel] iterations. *)
Fixpoint squeeze_loop (fuel : nat) (length : Z) (out : list Z) (self : t)
    : result (list Z * t) :=
  if len out <? length then
    match fuel with
    | O => OutOfFuel
    | S fuel =>
        let '(out_block, self) := squeeze_once self in
        squeeze_loop fuel length (out ++ out_block) self
    end
  else Ok (out, self).

(** Each iteration adds at least one byte when [bitrate_bytes] is
    positive, so [length] bounds the number of iterations. *)
Definition squeeze (self : t) (length : Z) : result (list Z * t) :=
  '(out, self) ← squeeze_loop (Z.to_nat length) length [] self;
  Ok (upto length out, self).

End KeccakSponge.

(** ** The store of sponge objects *)

Module Store.

(** References are positions in the store, the store holds the
    sponge objects. *)
Abbreviation ref := nat (only parsing).
Abbreviation t := (list KeccakSponge.t) (only parsing).

(** A new object is placed after all existing ones. *)
Definition alloc (sp : KeccakSponge.t) (σ : t) : ref * t :=
  (length σ, σ ++ [sp]).

Definition load (r : ref) (σ : t) : result KeccakSponge.t :=
  match σ !! r with
  | Some sp => Ok sp
  | None => Dangling
  end.

(** Call a method on the object at [r]; the method's new [self]
    replaces the object in place. *)
Definition call {A} (r : ref)
    (method : KeccakSponge.t -> result (A * KeccakSponge.t)) (σ : t)
    : result (A * t) :=
  self ← load r σ;
  '(a, self) ← method self;
  Ok (a, <[r := self]> σ).

(** [deepcopy]: a new object with the same contents. *)
Definition copy (r : ref) (σ : t) : result (ref * t) :=
  self ← load r σ;
  Ok (alloc self σ).

End Store.

(** ** Keccak-256 *)

Module KeccakHash.

Record t : Type := mk {
  output_bits : Z;
  sponge : Store.ref;
  digest_size : Z;
  block_size : Z
}.

Definition init (σ : Store.t) : result (t * Store.t) :=
  let output_bits := 256 in
  let bitrate_bits := 1088 in
  let capacity_bits := 512 in
  sp ← KeccakSponge.init bitrate_bits (bitrate_bits + capacity_bits)
         multirate_padding keccak_f;
  let '(r, σ) := Store.alloc sp σ in
  Ok (mk output_bits r (bits2bytes output_bits) (bits2bytes bitrate_bits), σ).

(** [list(data)] *)
Definition list_of_bytes (data : list byte) : list Z :=
  (fun c => Z.of_N (Byte.to_N c)) <$> data.

Definition update (self : t) (data : list byte) (σ : Store.t)
    : result (unit * Store.t) :=
  Store.call (sponge self)
    (fun sp => sp ← KeccakSponge.absorb sp (list_of_bytes data); Ok (tt, sp)) σ.

Definition digest (self : t) (σ : Store.t) : result (list byte * Store.t) :=
  '(final, σ) ← Store.copy (sponge self) σ;
  '(_, σ) ← Store.call final
              (fun sp => sp ← KeccakSponge.absorb_final sp; Ok (tt, sp)) σ;
  '(out_bytes, σ) ← Store.call final
                      (fun sp => KeccakSponge.squeeze sp (digest_size self)) σ;
  out ← KeccakState.ilist2bytes out_bytes;
  Ok (out, σ).

(** [bytes.hex()]: two lowercase digits per byte. *)
Definition hex_digit (n : N) : ascii :=
  match n with
  | 0 => "0" | 1 => "1" | 2 => "2" | 3 => "3" | 4 => "4" | 5 => "5"
  | 6 => "6" | 7 => "7" | 8 => "8" | 9 => "9" | 10 => "a" | 11 => "b"
  | 12 => "c" | 13 => "d" | 14 => "e" | _ => "f"
  end%N%char.

Definition hex (bs : list byte) : string :=
  foldr (fun c acc =>
           String (hex_digit (Byte.to_N c / 16))
                  (String (hex_digit (Byte.to_N c mod 16)) acc))
        EmptyString bs.

Definition hexdigest (self : t) (σ : Store.t) : result (string * Store.t) :=
  '(d, σ) ← digest self σ;
  Ok (hex d, σ).

End KeccakHash.

Definition keccak256 (data : list byte) (σ : Store.t)
    : result (list byte * Store.t) :=
  '(h, σ) ← KeccakHash.init σ;
  '(_, σ) ← KeccakHash.update h data σ;
  KeccakHash.digest h σ.

Definition keccak256_hex (data : list byte) (σ : Store.t)
    : result (string * Store.t) :=
  '(d, σ) ← keccak256 data σ;
  Ok (KeccakHash.hex d, σ).

(** * Properties *)

(** ** Lane rotation *)

Section RolFacts.

Lemma Masks_index (i : Z) : 0 <= i <= 64 -> Masks.[i] = Z.ones i.
Proof.
  intros Hi. unfold Masks, index, range.
  apply list_lookup_total_correct.
  rewrite list_lookup_fmap, lookup_seqZ_lt by lia. simpl.
  rewrite Z2Nat.id, Z.add_0_l, Z.ones_equiv, Z.shiftl_1_l by lia.
  done.
Qed.

(** A value below [2^n] has no bit at or above position [n]. *)
Lemma testbit_above (v n i : Z) :
  0 <= v < 2 ^ n -> n <= i -> Z.testbit v i = false.
Proof.
  intros [Hv0 Hv] Hi.
  destruct (Z.eq_dec v 0) as [->|Hne]; [apply Z.bits_0|].
  apply Z.bits_above_log2; [lia|].
  assert (Z.log2 v < n); [|lia].
  apply Z.log2_lt_pow2; lia.
Qed.

(** Conversely, a non-negative value with no bit at or above [n] is
    below [2^n]. *)
Lemma below_pow2 (v n : Z) :
  0 <= n -> 0 <= v -> (forall i, n <= i -> Z.testbit v i = false) -> v < 2 ^ n.
Proof.
  intros Hn Hv Hbits.
  destruct (Z.eq_dec v 0) as [->|Hne]; [apply Z.pow_pos_nonneg; lia|].
  apply Z.log2_lt_pow2; [lia|].
  destruct (Z_lt_le_dec (Z.log2 v) n) as [|Hle]; [done|].
  specialize (Hbits _ Hle). rewrite Z.bit_log2 in Hbits by lia. done.
Qed.

(** Bit [i] of the rotated word is bit [i - left] of the input,
    counted modulo 64. *)
Lemma rol_testbit (v left i : Z) :
  0 <= v < 2 ^ 64 -> 0 <= left <= 64 -> 0 <= i ->
  Z.testbit (rol v left 64) i =
    if i <? left then Z.testbit v (i + 64 - left)
    else (i <? 64) && Z.testbit v (i - left).
Proof.
  intros Hv Hl Hi. unfold rol.
  rewrite Masks_index by lia.
  rewrite Z.lor_spec, Z.shiftl_spec, Z.shiftr_spec by lia.
  replace (i + (64 - left)) with (i + 64 - left) by lia.
  destruct (Z.ltb_spec i left) as [Hlt|Hge].
  - rewrite (Z.testbit_neg_r _ (i - left)) by lia. done.
  - rewrite Z.land_spec, Z.testbit_ones_nonneg by lia.
    rewrite (testbit_above v 64 (i + 64 - left)) by lia.
    rewrite orb_false_r.
    destruct (Z.ltb_spec i 64), (Z.ltb_spec (i - left) (64 - left));
      try lia; simpl; by rewrite ?andb_true_r, ?andb_false_r.
Qed.

Lemma rol_range (v left : Z) :
  0 <= v < 2 ^ 64 -> 0 <= left <= 64 -> 0 <= rol v left 64 < 2 ^ 64.
Proof.
  intros Hv Hl.
  assert (0 <= rol v left 64) as Hnn.
  { unfold rol. rewrite Masks_index by lia.
    apply Z.lor_nonneg. split.
    - apply Z.shiftl_nonneg, Z.land_nonneg. lia.
    - apply Z.shiftr_nonneg. lia. }
  split; [done|].
  apply below_pow2; [lia|done|]. intros i Hi.
  rewrite rol_testbit by lia.
  destruct (Z.ltb_spec i left); [lia|].
  destruct (Z.ltb_spec i 64); [lia|done].
Qed.

Lemma rol_0 (v : Z) : 0 <= v < 2 ^ 64 -> rol v 0 64 = v.
Proof.
  intros Hv. apply Z.bits_inj'. intros i Hi.
  rewrite rol_testbit by lia.
  destruct (Z.ltb_spec i 0); [lia|].
  rewrite Z.sub_0_r.
  destruct (Z.ltb_spec i 64); [done|].
  by rewrite (testbit_above v 64 i).
Qed.

Lemma rol_rol (v n : Z) :
  0 <= v < 2 ^ 64 -> 0 <= n <= 64 -> rol (rol v n 64) (64 - n) 64 = v.
Proof.
  intros Hv Hn. apply Z.bits_inj'. intros i Hi.
  rewrite rol_testbit by (try apply rol_range; lia).
  destruct (Z.ltb_spec i (64 - n)).
  - rewrite rol_testbit by lia.
    destruct (Z.ltb_spec (i + 64 - (64 - n)) n); [lia|].
    destruct (Z.ltb_spec (i + 64 - (64 - n)) 64); [|lia].
    simpl. f_equal. lia.
  - destruct (Z.ltb_spec i 64).
    + rewrite rol_testbit by lia.
      destruct (Z.ltb_spec (i - (64 - n)) n); [|lia].
      simpl. f_equal. lia.
    + by rewrite (testbit_above v 64 i).
Qed.

End RolFacts.

(** C8. For every 64-bit value [v], [rol v 0 64 = v]; for every [n] in
    [0, 63], rotating by [n] and then by [64 - n] gives [v] back; and
    the rotated value is again a 64-bit value. *)
Theorem rol_identity (v n : Z) :
  0 <= v < 2 ^ 64 -> 0 <= n <= 63 ->
  rol v 0 64 = v
  /\ rol (rol v n 64) (64 - n) 64 = v
  /\ 0 <= rol v n 64 < 2 ^ 64
  /\ 0 <= rol (rol v n 64) (64 - n) 64 < 2 ^ 64.
Proof.
  intros Hv Hn. split; [by apply rol_0|].
  split; [apply rol_rol; lia|].
  split; [apply rol_range; lia|].
  rewrite rol_rol by lia. done.
Qed.

Lemma rol_identity_witness :
  rol 0x8000000000000001 0 64 = 0x8000000000000001
  /\ rol (rol 0x8000000000000001 63 64) (64 - 63) 64 = 0x8000000000000001
  /\ 0 <= rol 0x8000000000000001 63 64 < 2 ^ 64
  /\ 0 <= rol (rol 0x8000000000000001 63 64) (64 - 63) 64 < 2 ^ 64.
Proof. apply (rol_identity 0x8000000000000001 63); lia. Defined.

(** ** Padding *)

(** The padding rule in the words of the specification: with
    [padlen = bitrate_bytes - used_bytes], replaced by [bitrate_bytes]
    when it is 0, the pad is the single byte [0x81] when [padlen] is 1,
    and otherwise [0x01], then [padlen - 2] zero bytes, then [0x80]. *)
Definition padding_spec (used_bytes bitrate_bytes : Z) : list Z :=
  let padlen :=
    if bitrate_bytes - used_bytes =? 0 then bitrate_bytes
    else bitrate_bytes - used_bytes in
  if padlen =? 1 then [0x81]
  else 0x01 :: replicate (Z.to_nat (padlen - 2)) 0x00 ++ [0x80].

Lemma multirate_padding_len (used_bytes align_bytes : Z) :
  0 <= used_bytes < align_bytes ->
  len (multirate_padding used_bytes align_bytes) = align_bytes - used_bytes.
Proof.
  intros Hu. unfold multirate_padding, len, times.
  destruct (Z.eqb_spec (align_bytes - used_bytes) 0); [lia|].
  destruct (Z.eqb_spec (align_bytes - used_bytes) 1) as [->|]; [done|].
  rewrite !length_app, length_replicate. simpl. lia.
Qed.

Lemma multirate_padding_bytes (used_bytes align_bytes : Z) :
  Forall (fun v => 0 <= v < 256) (multirate_padding used_bytes align_bytes).
Proof.
  unfold multirate_padding, times.
  destruct (_ =? 1).
  - repeat constructor; lia.
  - rewrite !Forall_app. split_and!; [| apply Forall_replicate |];
      repeat constructor; lia.
Qed.

(** C4. For every [used_bytes] in [0, bitrate_bytes] the padding is the
    byte list the specification prescribes; padding a block that lacks
    one byte gives [[0x81]]; and padding a full block (136 bytes in
    Keccak-256, any rate of at least 2 bytes here) gives a whole block:
    [0x01], zeros, [0x80], of length [bitrate_bytes]. *)
Theorem multirate_padding_correct (used_bytes bitrate_bytes : Z) :
  0 <= used_bytes <= bitrate_bytes -> 2 <= bitrate_bytes ->
  multirate_padding used_bytes bitrate_bytes
    = padding_spec used_bytes bitrate_bytes
  /\ multirate_padding (bitrate_bytes - 1) bitrate_bytes = [0x81]
  /\ multirate_padding bitrate_bytes bitrate_bytes
       = 0x01 :: replicate (Z.to_nat (bitrate_bytes - 2)) 0x00 ++ [0x80]
  /\ len (multirate_padding bitrate_bytes bitrate_bytes) = bitrate_bytes.
Proof.
  intros Hu Hb. unfold multirate_padding, padding_spec, times, len.
  split_and!.
  - destruct (_ =? 0); destruct (_ =? 1); done.
  - replace (bitrate_bytes - (bitrate_bytes - 1)) with 1 by lia. done.
  - rewrite Z.sub_diag. simpl.
    destruct (Z.eqb_spec bitrate_bytes 1); [lia|done].
  - rewrite Z.sub_diag. simpl.
    destruct (Z.eqb_spec bitrate_bytes 1); [lia|].
    simpl. rewrite length_app, length_replicate. simpl. lia.
Qed.

Lemma multirate_padding_correct_witness :
  multirate_padding 0 136 = padding_spec 0 136
  /\ multirate_padding (136 - 1) 136 = [0x81]
  /\ multirate_padding 136 136
       = 0x01 :: replicate (Z.to_nat (136 - 2)) 0x00 ++ [0x80]
  /\ len (multirate_padding 136 136) = 136.
Proof. apply (multirate_padding_correct 0 136); lia. Defined.

(** ** Shape of the matrix *)

(** A matrix has five rows of five lanes. *)
Definition shape (a : list (list Z)) : Prop :=
  length a = 5%nat /\ Forall (fun row => length row = 5%nat) a.

(** Replace a list of known length by its elements. *)
Ltac explode_list l Hl :=
  repeat (destruct l as [|? l]; [exfalso; simpl in Hl; lia|]);
  destruct l; [|exfalso; simpl in Hl; lia]; clear Hl.

Ltac explode a Ha :=
  let Hl := fresh "Hl" in let Hr := fresh "Hr" in
  destruct Ha as [Hl Hr];
  explode_list a Hl;
  repeat match goal with
         | H : Forall _ (_ :: _) |- _ =>
             let H1 := fresh in let H2 := fresh in
             apply Forall_cons in H; destruct H as [H1 H2]
         | H : Forall _ [] |- _ => clear H
         end;
  repeat match goal with
         | H : length ?r = 5%nat |- _ => explode_list r H
         end.

Lemma shape_zero : shape KeccakState.zero.
Proof. split; [done|]. repeat constructor. Qed.

Lemma shape_set2 (a : list (list Z)) (x y v : Z) : shape a -> shape (set2 a x y v).
Proof.
  intros [Hl Hr]. unfold set2. split; [by rewrite length_insert|].
  destruct (decide (Z.to_nat x < length a)%nat) as [Hlt|Hge].
  - apply Forall_insert; [done|]. rewrite length_insert.
    unfold index. apply (Forall_lookup_total_1 _ _ _ Hr Hlt).
  - rewrite list_insert_ge by lia. done.
Qed.

Lemma foldl_invariant {A B} (P : A -> Prop) (f : A -> B -> A) (l : list B) (a : A) :
  (forall a x, P a -> P (f a x)) -> P a -> P (foldl f a l).
Proof. intros Hf. revert a. induction l; simpl; auto. Qed.

(** ** The rho+pi relocation *)

(** A position of the matrix: column [x] and row [y], both in [0, 4]. *)
Definition position (p : Z * Z) : Prop := 0 <= p.1 < 5 /\ 0 <= p.2 < 5.

(** Where [rho_pi] writes the lane it reads at [(x, y)]. *)
Definition pi_dest (p : Z * Z) : Z * Z :=
  (p.2 mod KeccakState.W, (2 * p.1 + 3 * p.2) mod KeccakState.H).

(** The position [rho_pi] reads the lane it writes at [(x, y)] from. *)
Definition pi_src (p : Z * Z) : Z * Z := ((p.1 + 3 * p.2) mod 5, p.1).

(** Case analysis on an index in [0, 4]. *)
Ltac cases5 x :=
  let Hx := fresh in
  assert (x = 0 \/ x = 1 \/ x = 2 \/ x = 3 \/ x = 4) as Hx by lia;
  destruct Hx as [->|[->|[->|[->| ->]]]].

Lemma rho_pi_lane (st : KeccakState.t) (a : list (list Z)) (x y : Z) :
  shape a -> position (x, y) ->
  (rho_pi st a).[(pi_dest (x, y)).1].[(pi_dest (x, y)).2]
    = rol a.[x].[y] RotationConstants.[y].[x] (KeccakState.lanew st).
Proof.
  intros Ha [[??] [??]]; simpl in *.
  explode a Ha. cases5 x; cases5 y; reflexivity.
Qed.

Lemma pi_dest_src (p : Z * Z) :
  position p -> position (pi_dest p) /\ pi_src (pi_dest p) = p.
Proof.
  destruct p as [x y]. intros [[??] [??]]; simpl in *.
  cases5 x; cases5 y; vm_compute; intuition congruence.
Qed.

Lemma pi_src_dest (q : Z * Z) :
  position q -> position (pi_src q) /\ pi_dest (pi_src q) = q.
Proof.
  destruct q as [x y]. intros [[??] [??]]; simpl in *.
  cases5 x; cases5 y; vm_compute; intuition congruence.
Qed.

(** C7. The relocation [(x, y) -> (y mod 5, (2x + 3y) mod 5)] of the
    rho+pi step is a bijection on the 25 positions: it maps positions
    to positions, [pi_src] is its inverse on both sides, and no two
    positions share a destination; so the slot at the destination of
    [(x, y)] in the matrix built by [rho_pi] holds the rotated lane
    read at [(x, y)]. *)
Theorem rho_pi_bijection (st : KeccakState.t) (a : list (list Z)) (p q : Z * Z) :
  shape a -> position p -> position q ->
  position (pi_dest p)
  /\ pi_src (pi_dest p) = p
  /\ position (pi_src q)
  /\ pi_dest (pi_src q) = q
  /\ (pi_dest p = pi_dest q -> p = q)
  /\ (rho_pi st a).[(pi_dest p).1].[(pi_dest p).2]
       = rol a.[p.1].[p.2] RotationConstants.[p.2].[p.1] (KeccakState.lanew st).
Proof.
  intros Ha Hp Hq.
  destruct (pi_dest_src p Hp) as [Hp1 Hp2].
  destruct (pi_src_dest q Hq) as [Hq1 Hq2].
  destruct (pi_dest_src q Hq) as [_ Hq3].
  split_and!; try done.
  - intros Heq. rewrite <- Hp2, <- Hq3. by f_equal.
  - destruct p as [x y]. by apply rho_pi_lane.
Qed.

Lemma rho_pi_bijection_witness :
  position (pi_dest (1, 2))
  /\ pi_src (pi_dest (1, 2)) = (1, 2)
  /\ position (pi_src (3, 4))
  /\ pi_dest (pi_src (3, 4)) = (3, 4)
  /\ (pi_dest (1, 2) = pi_dest (3, 4) -> (1, 2) = (3, 4))
  /\ (rho_pi (KeccakState.mk 1088 1600 136 64 KeccakState.zero)
        KeccakState.zero).[(pi_dest (1, 2)).1].[(pi_dest (1, 2)).2]
       = rol KeccakState.zero.[1].[2] RotationConstants.[2].[1] 64.
Proof.
  apply (rho_pi_bijection (KeccakState.mk 1088 1600 136 64 KeccakState.zero)
           KeccakState.zero (1, 2) (3, 4)).
  - apply shape_zero.
  - unfold position; simpl; lia.
  - unfold position; simpl; lia.
Defined.

(** ** The permutation keeps the shape and the parameters *)

Section PermutationShape.
Variable st : KeccakState.t.

Lemma shape_theta (a : list (list Z)) : shape a -> shape (theta st a).
Proof.
  intros Ha. unfold theta.
  apply (foldl_invariant (fun acc => shape acc.1)); [|done].
  intros [m d] x Hm. unfold theta_column. cbn [fst] in *.
  apply (foldl_invariant shape); [|done].
  intros. by apply shape_set2.
Qed.

Lemma shape_rho_pi (a : list (list Z)) : shape (rho_pi st a).
Proof.
  unfold rho_pi.
  apply (foldl_invariant shape); [|apply shape_zero].
  intros m x Hm. apply (foldl_invariant shape); [|done].
  intros. by apply shape_set2.
Qed.

Lemma shape_chi (a b : list (list Z)) : shape a -> shape (chi a b).
Proof.
  intros Ha. unfold chi.
  apply (foldl_invariant shape); [|done].
  intros m x Hm. apply (foldl_invariant shape); [|done].
  intros. by apply shape_set2.
Qed.

Lemma shape_keccak_round (a : list (list Z)) (rc : Z) :
  shape a -> shape (keccak_round st a rc).
Proof.
  intros Ha. unfold keccak_round, iota.
  by apply shape_set2, shape_chi, shape_theta.
Qed.
End PermutationShape.

Lemma shape_keccak_f (st : KeccakState.t) :
  shape (KeccakState.s st) -> shape (KeccakState.s (keccak_f st)).
Proof.
  intros Ha. unfold keccak_f. simpl.
  apply (foldl_invariant shape); [|done].
  intros. by apply shape_keccak_round.
Qed.

(** [keccak_f] assigns to the cells of [state.s] only. *)
Lemma keccak_f_fields (st : KeccakState.t) :
  KeccakState.bitrate (keccak_f st) = KeccakState.bitrate st
  /\ KeccakState.b (keccak_f st) = KeccakState.b st
  /\ KeccakState.bitrate_bytes (keccak_f st) = KeccakState.bitrate_bytes st
  /\ KeccakState.lanew (keccak_f st) = KeccakState.lanew st.
Proof. done. Qed.

(** ** The state object *)

(** The state of a Keccak-256 session: rate 1088 bits (136 bytes),
    width 1600 bits, 64-bit lanes, a 5x5 matrix. *)
Definition Keccak256State (st : KeccakState.t) : Prop :=
  KeccakState.bitrate st = 1088
  /\ KeccakState.b st = 1600
  /\ KeccakState.bitrate_bytes st = 136
  /\ KeccakState.lanew st = 64
  /\ shape (KeccakState.s st).

(** Offset of lane [(x, y)] in the linear byte serialization. *)
Definition lane_offset (x y : Z) : nat := Z.to_nat (8 * (5 * y + x)).

Lemma bytes2lane_cons (x : Z) (bb : list Z) :
  KeccakState.bytes2lane (x :: bb)
    = Z.lor (Z.shiftl (KeccakState.bytes2lane bb) 8) x.
Proof.
  unfold KeccakState.bytes2lane. by rewrite reverse_cons, foldl_app.
Qed.

Lemma bytes2lane_zeros (n : nat) : KeccakState.bytes2lane (replicate n 0) = 0.
Proof.
  induction n as [|n IH]; [done|].
  simpl. rewrite bytes2lane_cons, IH. done.
Qed.

(** Reading back the bytes [j, j + n) of a lane gives its bits
    [8j, 8j + 8n). *)
Lemma bytes2lane_lane_bytes (v : Z) (n : nat) (j : Z) :
  0 <= j ->
  KeccakState.bytes2lane
    ((fun k => Z.land (Z.shiftr v (8 * k)) 0xFF) <$> seqZ j (Z.of_nat n))
  = Z.land (Z.shiftr v (8 * j)) (Z.ones (8 * Z.of_nat n)).
Proof.
  revert j. induction n as [|n IH]; intros j Hj.
  - simpl. by rewrite Z.land_0_r.
  - replace (Z.of_nat (S n)) with (Z.succ (Z.of_nat n)) by lia.
    rewrite seqZ_cons by lia. rewrite Z.pred_succ, fmap_cons, bytes2lane_cons.
    rewrite IH by lia.
    apply Z.bits_inj'. intros i Hi.
    change 255 with (Z.ones 8).
    rewrite Z.lor_spec, Z.shiftl_spec by lia.
    rewrite (Z.land_spec (Z.shiftr v (8 * j))).
    rewrite (Z.land_spec (Z.shiftr v (8 * j))).
    rewrite !(Z.shiftr_spec v (8 * j)), !Z.testbit_ones_nonneg by lia.
    destruct (Z.ltb_spec i 8).
    + rewrite (Z.testbit_neg_r _ (i - 8)) by lia.
      destruct (Z.ltb_spec i (8 * Z.succ (Z.of_nat n))); [done|lia].
    + rewrite Z.land_spec, Z.shiftr_spec, Z.testbit_ones_nonneg by lia.
      rewrite andb_false_r, orb_false_r.
      replace (i - 8 + 8 * Z.succ j) with (i + 8 * j) by lia.
      f_equal.
      destruct (Z.ltb_spec (i - 8) (8 * Z.of_nat n)),
        (Z.ltb_spec i (8 * Z.succ (Z.of_nat n))); done || lia.
Qed.

(** [bytes2lane] undoes [lane2bytes] on a 64-bit lane. *)
Lemma bytes2lane_lane2bytes (v : Z) :
  0 <= v < 2 ^ 64 -> KeccakState.bytes2lane (KeccakState.lane2bytes v 64) = v.
Proof.
  intros Hv. unfold KeccakState.lane2bytes, range8.
  rewrite <- list_fmap_compose.
  change ((64 + 7) / 8) with (Z.of_nat 8).
  etrans; [apply (bytes2lane_lane_bytes v 8 0); lia|].
  rewrite Z.shiftr_0_r, Z.land_ones by lia.
  apply Z.mod_small. lia.
Qed.

Lemma lane2bytes_index (v k : Z) :
  0 <= k < 8 ->
  (KeccakState.lane2bytes v 64).[k] = Z.land (Z.shiftr v (8 * k)) 0xFF.
Proof.
  intros Hk.
  assert (k = 0 \/ k = 1 \/ k = 2 \/ k = 3 \/ k = 4 \/ k = 5 \/ k = 6 \/ k = 7)
    as Hc by lia.
  destruct Hc as [->|[->|[->|[->|[->|[->|[->| ->]]]]]]]; reflexivity.
Qed.

Lemma lane2bytes_bytes (v w : Z) :
  Forall (fun c => 0 <= c < 256) (KeccakState.lane2bytes v w).
Proof.
  unfold KeccakState.lane2bytes. apply Forall_fmap, Forall_forall.
  intros k _. simpl. change 255 with (Z.ones 8).
  rewrite Z.land_ones by lia. apply Z.mod_pos_bound. lia.
Qed.

(** The loops of [get_bytes] write the lanes one after the other, row
    by row. *)
Lemma get_bytes_flat (st : KeccakState.t) :
  KeccakState.b st = 1600 -> KeccakState.lanew st = 64 ->
  KeccakState.get_bytes st
    = y ← KeccakState.rangeH; x ← KeccakState.rangeW;
      KeccakState.lane2bytes (KeccakState.s st).[x].[y] 64.
Proof.
  destruct st as [br bb brb lw m]. cbn [KeccakState.b KeccakState.lanew].
  intros -> ->. unfold KeccakState.get_bytes.
  cbv -[index Z.land Z.shiftr]. reflexivity.
Qed.

Lemma get_bytes_slice (st : KeccakState.t) (x y : Z) :
  KeccakState.b st = 1600 -> KeccakState.lanew st = 64 -> position (x, y) ->
  slice (KeccakState.get_bytes st) (lane_offset x y) (lane_offset x y + 8)
    = KeccakState.lane2bytes (KeccakState.s st).[x].[y] 64.
Proof.
  intros Hb Hw [[??] [??]]; simpl in *.
  rewrite get_bytes_flat by done.
  cases5 x; cases5 y; reflexivity.
Qed.

Lemma get_bytes_len (st : KeccakState.t) :
  KeccakState.b st = 1600 -> KeccakState.lanew st = 64 ->
  length (KeccakState.get_bytes st) = 200%nat.
Proof. intros Hb Hw. by rewrite get_bytes_flat. Qed.

Lemma get_bytes_bytes (st : KeccakState.t) :
  KeccakState.b st = 1600 -> KeccakState.lanew st = 64 ->
  Forall (fun c => 0 <= c < 256) (KeccakState.get_bytes st).
Proof.
  intros Hb Hw. rewrite get_bytes_flat by done.
  apply Forall_bind, Forall_forall. intros y _.
  apply Forall_bind, Forall_forall. intros x _.
  apply lane2bytes_bytes.
Qed.

Lemma squeeze_prefix (st : KeccakState.t) :
  KeccakState.bitrate_bytes st = 136 ->
  KeccakState.squeeze st = take 136 (KeccakState.get_bytes st).
Proof. intros Hr. unfold KeccakState.squeeze, upto, bound. by rewrite Hr. Qed.

(** The assertion of [absorb]. *)
Lemma state_absorb_wrong_length (st : KeccakState.t) (block : list Z) :
  len block <> KeccakState.bitrate_bytes st ->
  KeccakState.absorb st block = Raise AssertionError.
Proof.
  intros Hne. unfold KeccakState.absorb.
  destruct (Z.eqb_spec (len block) (KeccakState.bitrate_bytes st)); done.
Qed.

(** [absorb] returns for a block of the right length, and assigns to
    cells of the matrix only. *)
Lemma state_absorb_ok (st : KeccakState.t) (block : list Z) :
  len block = KeccakState.bitrate_bytes st ->
  exists m,
    KeccakState.absorb st block = Ok (KeccakState.set_s st m)
    /\ (shape (KeccakState.s st) -> shape m).
Proof.
  intros Hlen. unfold KeccakState.absorb.
  rewrite (proj2 (Z.eqb_eq _ _) Hlen). cbn [assert mbind result_bind].
  set (blk := block ++ _).
  assert (shape (KeccakState.s st) ->
          shape (foldl (fun acc y => foldl (KeccakState.absorb_lane blk y) acc
                                       KeccakState.rangeW)
                   (KeccakState.s st, 0%nat) KeccakState.rangeH).1) as Hs.
  { intros Hs. apply (foldl_invariant (fun acc => shape acc.1)); [|done].
    intros acc y Hacc.
    apply (foldl_invariant (fun acc => shape acc.1)); [|done].
    intros [m i] x Hm. by apply shape_set2. }
  destruct (foldl _ _ _) as [m i]. eauto.
Qed.

(** The lanes after [absorb]: lane [(x, y)] is XORed with the
    little-endian value of the eight bytes at its offset in the
    zero-extended block. *)
Lemma state_absorb_lanes (st st' : KeccakState.t) (block : list Z) (x y : Z) :
  shape (KeccakState.s st) -> position (x, y) ->
  KeccakState.absorb st block = Ok st' ->
  (KeccakState.s st').[x].[y]
    = Z.lxor (KeccakState.s st).[x].[y]
        (KeccakState.bytes2lane
           (slice (block ++ times 0 (bits2bytes (KeccakState.b st - KeccakState.bitrate st)))
                  (lane_offset x y) (lane_offset x y + 8))).
Proof.
  intros Hs [[??] [??]]; cbn [fst snd] in *. unfold KeccakState.absorb.
  destruct (len block =? _); [|done]. cbn [assert mbind result_bind].
  generalize (block ++ times 0 (bits2bytes (KeccakState.b st - KeccakState.bitrate st))).
  intros blk. destruct st as [br bb brb lw m].
  cbn [KeccakState.s KeccakState.set_s KeccakState.bitrate KeccakState.b
       KeccakState.bitrate_bytes KeccakState.lanew] in Hs |- *.
  explode m Hs.
  destruct (foldl _ _ _) as [m' i'] eqn:Hfold.
  intros [= <-].
  cbv -[slice KeccakState.bytes2lane Z.lxor] in Hfold.
  injection Hfold as <- _.
  cases5 x; cases5 y; reflexivity.
Qed.

Lemma slice_index {A} `{!Inhabited A} (l v : list A) (i : nat) (k : Z) :
  slice l i (i + 8) = v -> 0 <= k < len v ->
  l.[Z.of_nat i + k] = v.[k].
Proof.
  unfold slice, index, len. intros <- Hk.
  replace (i + 8 - i)%nat with 8%nat in * by lia.
  rewrite length_take, length_drop in Hk.
  rewrite lookup_total_take_lt by lia. rewrite lookup_total_drop.
  f_equal. lia.
Qed.

Lemma Keccak256State_absorb (st : KeccakState.t) (block : list Z) :
  Keccak256State st -> len block = 136 ->
  exists st', KeccakState.absorb st block = Ok st' /\ Keccak256State st'.
Proof.
  intros (Hr & Hb & Hrb & Hw & Hs) Hlen.
  destruct (state_absorb_ok st block) as (m & Hm & Hsm); [congruence|].
  exists (KeccakState.set_s st m). split; [done|].
  unfold Keccak256State. simpl. split_and!; auto.
Qed.

(** C6. The byte-to-lane mapping of a Keccak-256 state: [get_bytes]
    is the concatenation of the lanes' bytes with [y] outer and [x]
    inner; lane [(x, y)] occupies the bytes from [8 * (5 * y + x)] on,
    byte [k] of a lane being its bits [8k .. 8k + 7] (little-endian,
    and [bytes2lane] reads them back); [absorb] XORs into lane [(x, y)]
    the little-endian value of the block bytes at the same offset; and
    [squeeze] is the first 136 bytes of [get_bytes]. *)
Theorem byte_lane_mapping (st : KeccakState.t) (block : list Z) (x y k : Z) :
  Keccak256State st -> position (x, y) -> 0 <= k < 8 -> len block = 136 ->
  let lane := (KeccakState.s st).[x].[y] in
  KeccakState.get_bytes st
    = (y ← KeccakState.rangeH; x ← KeccakState.rangeW;
       KeccakState.lane2bytes (KeccakState.s st).[x].[y] 64)
  /\ len (KeccakState.get_bytes st) = 200
  /\ lane_offset x y = Z.to_nat (8 * (5 * y + x))
  /\ slice (KeccakState.get_bytes st) (lane_offset x y) (lane_offset x y + 8)
       = KeccakState.lane2bytes lane 64
  /\ (KeccakState.get_bytes st).[8 * (5 * y + x) + k]
       = Z.land (Z.shiftr lane (8 * k)) 0xFF
  /\ (0 <= lane < 2 ^ 64 ->
      KeccakState.bytes2lane (KeccakState.lane2bytes lane 64) = lane)
  /\ (forall c bb, KeccakState.bytes2lane (c :: bb)
                   = Z.lor (Z.shiftl (KeccakState.bytes2lane bb) 8) c)
  /\ KeccakState.squeeze st = take 136 (KeccakState.get_bytes st)
  /\ exists st',
       KeccakState.absorb st block = Ok st'
       /\ (KeccakState.s st').[x].[y]
            = Z.lxor lane
                (KeccakState.bytes2lane
                   (slice (block ++ replicate 64 0)
                          (lane_offset x y) (lane_offset x y + 8))).
Proof.
  intros Hst Hp Hk Hlen lane.
  pose proof Hst as (Hr & Hb & Hrb & Hw & Hs).
  split_and!.
  - by apply get_bytes_flat.
  - unfold len. by rewrite get_bytes_len.
  - done.
  - by apply get_bytes_slice.
  - replace (8 * (5 * y + x)) with (Z.of_nat (lane_offset x y))
      by (destruct Hp as [[??] [??]]; unfold lane_offset; simpl in *; lia).
    rewrite (slice_index _ (KeccakState.lane2bytes lane 64) _ k).
    + by apply lane2bytes_index.
    + by apply get_bytes_slice.
    + done.
  - apply bytes2lane_lane2bytes.
  - apply bytes2lane_cons.
  - by apply squeeze_prefix.
  - destruct (Keccak256State_absorb st block Hst Hlen) as (st' & Habs & _).
    exists st'. split; [done|].
    rewrite (state_absorb_lanes st st' block x y Hs Hp Habs).
    by rewrite Hb, Hr.
Qed.

Lemma byte_lane_mapping_witness :
  let st := KeccakState.mk 1088 1600 136 64 KeccakState.zero in
  exists st',
    KeccakState.absorb st (replicate 136 0xFF) = Ok st'
    /\ (KeccakState.s st').[1].[3]
         = Z.lxor (KeccakState.s st).[1].[3]
             (KeccakState.bytes2lane
                (slice (replicate 136 0xFF ++ replicate 64 0)
                       (lane_offset 1 3) (lane_offset 1 3 + 8))).
Proof.
  intros st.
  refine (proj2 (proj2 (proj2 (proj2 (proj2 (proj2 (proj2 (proj2
    (byte_lane_mapping st (replicate 136 0xFF) 1 3 2 _ _ _ _)))))))));
    unfold Keccak256State, position; simpl;
    repeat split; try lia; try reflexivity; apply shape_zero.
Defined.

(** C10. [absorb] on a Keccak-256 state changes the rate region only:
    for a block of 136 bytes (17 lanes), every lane [(x, y)] with
    [5 * y + x >= 17] keeps its value, the block being extended by
    zeros and XOR with zero changing nothing. *)
Theorem absorb_keeps_capacity (st : KeccakState.t) (block : list Z) (x y : Z) :
  Keccak256State st -> len block = 136 -> position (x, y) -> 17 <= 5 * y + x ->
  exists st',
    KeccakState.absorb st block = Ok st'
    /\ (KeccakState.s st').[x].[y] = (KeccakState.s st).[x].[y].
Proof.
  intros Hst Hlen Hp Hcap.
  pose proof Hst as (Hr & Hb & Hrb & Hw & Hs).
  destruct (Keccak256State_absorb st block Hst Hlen) as (st' & Habs & _).
  exists st'. split; [done|].
  rewrite (state_absorb_lanes st st' block x y Hs Hp Habs), Hb, Hr.
  destruct Hp as [[??] [??]]; simpl in *.
  assert (136 <= lane_offset x y <= 192)%nat as Hoff
    by (unfold lane_offset; lia).
  unfold slice, times, len in *.
  rewrite drop_app_ge by lia.
  rewrite drop_replicate, take_replicate, bytes2lane_zeros.
  apply Z.lxor_0_r.
Qed.

Lemma absorb_keeps_capacity_witness :
  let st := KeccakState.mk 1088 1600 136 64 KeccakState.zero in
  exists st',
    KeccakState.absorb st (replicate 136 0xFF) = Ok st'
    /\ (KeccakState.s st').[2].[3] = (KeccakState.s st).[2].[3].
Proof.
  intros st.
  apply (absorb_keeps_capacity st (replicate 136 0xFF) 2 3);
    unfold Keccak256State, position; simpl;
    repeat split; try lia; try reflexivity; apply shape_zero.
Defined.

(** ** The sponge *)

(** The sponge of a Keccak-256 session, as [KeccakHash] wires it. *)
Definition Keccak256Sponge (sp : KeccakSponge.t) : Prop :=
  Keccak256State (KeccakSponge.state sp)
  /\ KeccakSponge.padfn sp = multirate_padding
  /\ KeccakSponge.permfn sp = keccak_f
  /\ (length (KeccakSponge.buffer sp) < 136)%nat.

(** The same without the bound on the buffer, for the states inside
    the loop of [absorb]. *)
Definition Keccak256Wiring (sp : KeccakSponge.t) : Prop :=
  Keccak256State (KeccakSponge.state sp)
  /\ KeccakSponge.padfn sp = multirate_padding
  /\ KeccakSponge.permfn sp = keccak_f.

Lemma Keccak256State_keccak_f (st : KeccakState.t) :
  Keccak256State st -> Keccak256State (keccak_f st).
Proof.
  intros (Hr & Hb & Hrb & Hw & Hs). unfold Keccak256State.
  split_and!; try done. by apply shape_keccak_f.
Qed.

Lemma bind_Ok {A B} (a : A) (f : A -> result B) : (Ok a ≫= f) = f a.
Proof. done. Qed.

(** [absorb_block] on a block of 136 bytes: the new state does not
    depend on the buffer, which is left alone. *)
Lemma absorb_block_ok (st : KeccakState.t) (block : list Z) :
  Keccak256State st -> len block = 136 ->
  exists st',
    Keccak256State st'
    /\ forall pad buf,
         KeccakSponge.absorb_block (KeccakSponge.mk st pad keccak_f buf) block
           = Ok (KeccakSponge.mk st' pad keccak_f buf).
Proof.
  intros Hst Hlen.
  destruct (Keccak256State_absorb st block Hst Hlen) as (st1 & Habs & Hst1).
  exists (keccak_f st1). split; [by apply Keccak256State_keccak_f|].
  intros pad buf. unfold KeccakSponge.absorb_block.
  cbn [KeccakSponge.state KeccakSponge.permfn].
  destruct Hst as (_ & _ & -> & _). rewrite Hlen. cbn [Z.eqb Pos.eqb assert].
  rewrite bind_Ok, Habs, bind_Ok. done.
Qed.

Lemma absorb_block_wrong_length (sp : KeccakSponge.t) (block : list Z) :
  len block <> KeccakState.bitrate_bytes (KeccakSponge.state sp) ->
  KeccakSponge.absorb_block sp block = Raise AssertionError.
Proof.
  intros Hne. unfold KeccakSponge.absorb_block.
  destruct (Z.eqb_spec (len block)
              (KeccakState.bitrate_bytes (KeccakSponge.state sp))); done.
Qed.

Lemma absorb_loop_unfold (fuel : nat) (sp : KeccakSponge.t) :
  KeccakSponge.absorb_loop fuel sp =
    if len (KeccakSponge.buffer sp)
         >=? KeccakState.bitrate_bytes (KeccakSponge.state sp) then
      match fuel with
      | O => OutOfFuel
      | S fuel =>
          self ← KeccakSponge.absorb_block sp
                   (upto (KeccakState.bitrate_bytes (KeccakSponge.state sp))
                         (KeccakSponge.buffer sp));
          KeccakSponge.absorb_loop fuel
            (KeccakSponge.set_buffer self
               (from (KeccakState.bitrate_bytes (KeccakSponge.state self))
                     (KeccakSponge.buffer self)))
      end
    else Ok sp.
Proof. by destruct fuel. Qed.

(** One iteration of the loop of [absorb] on a Keccak-256 sponge
    holding at least one block. *)
Lemma absorb_loop_step (st : KeccakState.t) (buf : list Z) :
  Keccak256State st -> (136 <= length buf)%nat ->
  exists st',
    Keccak256State st'
    /\ (forall pad more,
          KeccakSponge.absorb_block
            (KeccakSponge.mk st pad keccak_f (buf ++ more)) (take 136 buf)
          = Ok (KeccakSponge.mk st' pad keccak_f (buf ++ more)))
    /\ forall pad more fuel,
         KeccakSponge.absorb_loop (S fuel)
           (KeccakSponge.mk st pad keccak_f (buf ++ more))
         = KeccakSponge.absorb_loop fuel
             (KeccakSponge.mk st' pad keccak_f (drop 136 buf ++ more)).
Proof.
  intros Hst Hbuf.
  destruct (absorb_block_ok st (take 136 buf)) as (st' & Hst' & Hblk);
    [done | unfold len; rewrite length_take; lia |].
  exists st'. split; [done|]. split; [by intros; apply Hblk|].
  intros pad more fuel. rewrite absorb_loop_unfold.
  cbn [KeccakSponge.state KeccakSponge.buffer].
  pose proof Hst as (_ & _ & Hrb & _). rewrite Hrb.
  assert ((len (buf ++ more) >=? 136) = true) as ->.
  { apply Z.geb_le. unfold len. rewrite length_app. lia. }
  assert (upto 136 (buf ++ more) = take 136 buf) as ->.
  { unfold upto, bound. simpl. by rewrite take_app_le by lia. }
  rewrite Hblk, bind_Ok.
  cbn [KeccakSponge.state KeccakSponge.buffer KeccakSponge.set_buffer
       KeccakSponge.padfn KeccakSponge.permfn].
  pose proof Hst' as (_ & _ & Hrb' & _). rewrite Hrb'.
  assert (from 136 (buf ++ more) = drop 136 buf ++ more) as ->.
  { unfold from, bound. simpl. by rewrite drop_app_le by lia. }
  done.
Qed.

Lemma absorb_loop_exit (st : KeccakState.t) (pad : Z -> Z -> list Z)
    (buf : list Z) (fuel : nat) :
  Keccak256State st -> (length buf < 136)%nat ->
  KeccakSponge.absorb_loop fuel (KeccakSponge.mk st pad keccak_f buf)
    = Ok (KeccakSponge.mk st pad keccak_f buf).
Proof.
  intros (_ & _ & Hrb & _) Hbuf. rewrite absorb_loop_unfold.
  cbn [KeccakSponge.state KeccakSponge.buffer]. rewrite Hrb.
  destruct (Z.geb_spec (len buf) 136) as [Hge|]; [unfold len in Hge; lia|done].
Qed.

(** The loop of [absorb] returns, with less than a block in the
    buffer, whenever the fuel is at least the length of the buffer;
    the result does not depend on the fuel. *)
Lemma absorb_loop_total (n : nat) :
  forall (st : KeccakState.t) (pad : Z -> Z -> list Z) (buf : list Z),
    Keccak256State st -> (length buf <= n)%nat ->
    exists st' buf',
      Keccak256State st' /\ (length buf' < 136)%nat
      /\ forall fuel, (length buf <= fuel)%nat ->
           KeccakSponge.absorb_loop fuel (KeccakSponge.mk st pad keccak_f buf)
             = Ok (KeccakSponge.mk st' pad keccak_f buf').
Proof.
  induction n as [|n IH]; intros st pad buf Hst Hn.
  - exists st, buf. split_and!; [done|lia|].
    intros fuel _. apply absorb_loop_exit; [done|lia].
  - destruct (decide (length buf < 136)%nat) as [Hlt|Hge].
    + exists st, buf. split_and!; [done..|].
      intros fuel _. by apply absorb_loop_exit.
    + destruct (absorb_loop_step st buf Hst) as (st1 & Hst1 & _ & Hstep); [lia|].
      destruct (IH st1 pad (drop 136 buf) Hst1) as (st' & buf' & Hst' & Hb' & Hrun).
      { rewrite length_drop. lia. }
      exists st', buf'. split_and!; [done..|].
      intros [|fuel] Hfuel; [lia|].
      specialize (Hstep pad [] fuel). rewrite !app_nil_r in Hstep.
      rewrite Hstep. apply Hrun. rewrite length_drop. lia.
Qed.

Lemma Keccak256Sponge_wiring (sp : KeccakSponge.t) :
  Keccak256Sponge sp -> Keccak256Wiring sp.
Proof. intros (? & ? & ? & ?). done. Qed.

(** Name the fields of a sponge with the Keccak-256 wiring. *)
Ltac wire sp Hw :=
  let Hpad := fresh "Hpad" in let Hperm := fresh "Hperm" in
  destruct sp as [st pad perm buf];
  destruct Hw as (Hst & Hpad & Hperm);
  cbn [KeccakSponge.state KeccakSponge.padfn KeccakSponge.permfn
       KeccakSponge.buffer] in Hst, Hpad, Hperm;
  subst pad perm.

Ltac sponge_fields :=
  try unfold KeccakSponge.set_buffer;
  try unfold KeccakSponge.set_state;
  cbn [KeccakSponge.buffer KeccakSponge.state KeccakSponge.padfn
       KeccakSponge.permfn].

(** [absorb] returns on every Keccak-256 sponge, whatever the data,
    and leaves less than a block in the buffer. *)
Lemma absorb_total (sp : KeccakSponge.t) (data : list Z) :
  Keccak256Wiring sp ->
  exists sp',
    KeccakSponge.absorb sp data = Ok sp' /\ Keccak256Sponge sp'.
Proof.
  intros Hw. wire sp Hw. unfold KeccakSponge.absorb. sponge_fields.
  destruct (absorb_loop_total _ st multirate_padding (buf ++ data) Hst (le_n _))
    as (st' & buf' & Hst' & Hb' & Hrun).
  rewrite Hrun by done. eexists. split; [done|].
  unfold Keccak256Sponge. simpl. done.
Qed.

(** Feeding [a] and then [b] is feeding [a ++ b]: the loop started on
    a longer buffer takes the same first steps. *)
Lemma absorb_loop_app (n : nat) :
  forall (st : KeccakState.t) (pad : Z -> Z -> list Z) (buf more : list Z),
    Keccak256State st -> (length buf <= n)%nat ->
    exists st' buf',
      KeccakSponge.absorb_loop (length buf)
        (KeccakSponge.mk st pad keccak_f buf)
        = Ok (KeccakSponge.mk st' pad keccak_f buf')
      /\ KeccakSponge.absorb_loop (length (buf ++ more))
           (KeccakSponge.mk st pad keccak_f (buf ++ more))
         = KeccakSponge.absorb_loop (length (buf' ++ more))
             (KeccakSponge.mk st' pad keccak_f (buf' ++ more)).
Proof.
  induction n as [|n IH]; intros st pad buf more Hst Hn.
  - exists st, buf. split; [|done]. apply absorb_loop_exit; [done|lia].
  - destruct (decide (length buf < 136)%nat) as [Hlt|Hge].
    + exists st, buf. split; [|done]. by apply absorb_loop_exit.
    + destruct (absorb_loop_step st buf Hst) as (st1 & Hst1 & _ & Hstep); [lia|].
      destruct (IH st1 pad (drop 136 buf) more Hst1) as (st' & buf' & Hrun & Happ).
      { rewrite length_drop. lia. }
      exists st', buf'. split.
      * destruct (length buf) as [|fuel] eqn:Hlen; [lia|].
        pose proof (Hstep pad [] fuel) as Hs. rewrite !app_nil_r in Hs.
        rewrite Hs.
        destruct (absorb_loop_total fuel st1 pad (drop 136 buf) Hst1)
          as (st2 & buf2 & _ & _ & Hfuel); [rewrite length_drop; lia|].
        rewrite Hfuel in Hrun |- * by (rewrite ?length_drop; lia). done.
      * rewrite <- Happ.
        destruct (length (buf ++ more)) as [|fuel] eqn:Hlen;
          [rewrite length_app in Hlen; lia|].
        rewrite Hstep.
        destruct (absorb_loop_total fuel st1 pad (drop 136 buf ++ more) Hst1)
          as (st2 & buf2 & _ & _ & Hfuel).
        { rewrite length_app in Hlen |- *. rewrite length_drop. lia. }
        rewrite !Hfuel; [done|lia|].
        rewrite length_app in Hlen |- *. rewrite length_drop. lia.
Qed.

Lemma absorb_app (sp : KeccakSponge.t) (a b : list Z) :
  Keccak256Wiring sp ->
  KeccakSponge.absorb sp (a ++ b)
    = (sp1 ← KeccakSponge.absorb sp a; KeccakSponge.absorb sp1 b).
Proof.
  intros Hw. wire sp Hw. unfold KeccakSponge.absorb. sponge_fields.
  destruct (absorb_loop_app _ st multirate_padding (buf ++ a) b Hst (le_n _))
    as (st' & buf' & Hrun & Happ).
  rewrite Hrun, bind_Ok. sponge_fields.
  rewrite app_assoc. done.
Qed.

Lemma absorb_nil (sp : KeccakSponge.t) :
  Keccak256Sponge sp -> KeccakSponge.absorb sp [] = Ok sp.
Proof.
  intros Hsp. pose proof Hsp as (_ & _ & _ & Hbuf).
  apply Keccak256Sponge_wiring in Hsp. wire sp Hsp.
  unfold KeccakSponge.absorb. sponge_fields. simpl in Hbuf.
  rewrite app_nil_r. by apply absorb_loop_exit.
Qed.

(** [absorb_final] pads the buffer to exactly one block. *)
Lemma absorb_final_total (sp : KeccakSponge.t) :
  Keccak256Sponge sp ->
  exists st',
    Keccak256State st'
    /\ KeccakSponge.absorb_final sp
         = Ok (KeccakSponge.mk st' multirate_padding keccak_f []).
Proof.
  intros Hsp. pose proof Hsp as (_ & _ & _ & Hbuf).
  apply Keccak256Sponge_wiring in Hsp. wire sp Hsp.
  unfold KeccakSponge.absorb_final. sponge_fields. simpl in Hbuf.
  pose proof Hst as (_ & _ & Hrb & _). rewrite Hrb.
  destruct (absorb_block_ok st (buf ++ multirate_padding (len buf) 136))
    as (st' & Hst' & Hblk); [done| |].
  { pose proof (multirate_padding_len (len buf) 136) as Hp.
    unfold len in *. rewrite length_app. lia. }
  exists st'. split; [done|]. by rewrite Hblk, bind_Ok.
Qed.

Lemma state_squeeze_block (st : KeccakState.t) :
  Keccak256State st ->
  length (KeccakState.squeeze st) = 136%nat
  /\ Forall (fun c => 0 <= c < 256) (KeccakState.squeeze st).
Proof.
  intros (Hr & Hb & Hrb & Hw & Hs). rewrite squeeze_prefix by done. split.
  - rewrite length_take, get_bytes_len by done. done.
  - apply Forall_take. by apply get_bytes_bytes.
Qed.

Lemma squeeze_loop_unfold (fuel : nat) (length : Z) (out : list Z)
    (sp : KeccakSponge.t) :
  KeccakSponge.squeeze_loop fuel length out sp =
    if len out <? length then
      match fuel with
      | O => OutOfFuel
      | S fuel =>
          let '(out_block, self) := KeccakSponge.squeeze_once sp in
          KeccakSponge.squeeze_loop fuel length (out ++ out_block) self
      end
    else Ok (out, sp).
Proof. by destruct fuel. Qed.

(** Squeezing the 32 bytes of a digest takes one block. *)
Lemma sponge_squeeze_digest (sp : KeccakSponge.t) :
  Keccak256Wiring sp ->
  KeccakSponge.squeeze sp 32
    = Ok (take 32 (KeccakState.squeeze (KeccakSponge.state sp)),
          KeccakSponge.set_state sp (keccak_f (KeccakSponge.state sp))).
Proof.
  intros Hw. wire sp Hw. unfold KeccakSponge.squeeze.
  change (Z.to_nat 32) with 32%nat.
  rewrite squeeze_loop_unfold. change (len [] <? 32) with true.
  cbn [KeccakSponge.squeeze_once KeccakSponge.squeeze_once app]. sponge_fields.
  unfold KeccakSponge.squeeze_once. sponge_fields.
  rewrite squeeze_loop_unfold.
  destruct (state_squeeze_block st Hst) as [Hlen _].
  unfold len at 1. simpl app. rewrite Hlen.
  change (Z.of_nat 136 <? 32) with false. cbv iota.
  rewrite bind_Ok. done.
Qed.

(** What [squeeze] does with a length that asks for nothing. *)
Lemma sponge_squeeze_nonpositive (sp : KeccakSponge.t) (length : Z) :
  length <= 0 -> KeccakSponge.squeeze sp length = Ok ([], sp).
Proof.
  intros Hle. unfold KeccakSponge.squeeze. rewrite squeeze_loop_unfold.
  destruct (Z.ltb_spec (len (@nil Z)) length) as [Hlt|_];
    [unfold len in Hlt; simpl in Hlt; lia|].
  rewrite bind_Ok. unfold upto. by rewrite take_nil.
Qed.

Lemma byte_of_int_ok (v : Z) :
  0 <= v < 256 -> exists c, KeccakState.byte_of_int v = Ok c.
Proof.
  intros Hv. unfold KeccakState.byte_of_int.
  destruct (Z.leb_spec 0 v); [|lia]. destruct (Z.ltb_spec v 256); [|lia].
  simpl. destruct (Byte.of_N (Z.to_N v)) as [c|] eqn:Hc; [by exists c|].
  apply Byte.of_N_None_iff in Hc. lia.
Qed.

Lemma ilist2bytes_ok (bb : list Z) :
  Forall (fun c => 0 <= c < 256) bb ->
  exists out, KeccakState.ilist2bytes bb = Ok out /\ length out = length bb.
Proof.
  unfold KeccakState.ilist2bytes.
  induction 1 as [|v bb Hv _ (out & IH & Hlen)]; [by exists []|].
  destruct (byte_of_int_ok v Hv) as (c & Hc).
  exists (c :: out). simpl. rewrite Hc, bind_Ok, IH, bind_Ok.
  split; [done|]. simpl. by rewrite Hlen.
Qed.

(** ** The session *)

(** What [digest] computes from the contents of the live sponge: the
    calls made on the copy, without the store. *)
Definition digest_of (sp : KeccakSponge.t) : result (list byte) :=
  final ← KeccakSponge.absorb_final sp;
  '(out_bytes, _) ← KeccakSponge.squeeze final 32;
  KeccakState.ilist2bytes out_bytes.

Lemma digest_of_total (sp : KeccakSponge.t) :
  Keccak256Sponge sp ->
  exists d, digest_of sp = Ok d /\ length d = 32%nat.
Proof.
  intros Hsp. destruct (absorb_final_total sp Hsp) as (st' & Hst' & Hfin).
  unfold digest_of. rewrite Hfin, bind_Ok.
  rewrite sponge_squeeze_digest by done. rewrite bind_Ok. sponge_fields.
  destruct (state_squeeze_block st' Hst') as [Hlen Hbytes].
  destruct (ilist2bytes_ok (take 32 (KeccakState.squeeze st'))) as (d & Hd & Hdl).
  { by apply Forall_take. }
  exists d. split; [done|]. rewrite Hdl, length_take, Hlen. done.
Qed.

(** The sponge [KeccakHash()] creates. *)
Definition sponge0 : KeccakSponge.t :=
  KeccakSponge.mk (KeccakState.mk 1088 1600 136 64 KeccakState.zero)
    multirate_padding keccak_f [].

(** A session fed the byte strings [ds] one after the other. *)
Fixpoint updates (h : KeccakHash.t) (ds : list (list byte)) (σ : Store.t)
    : result (unit * Store.t) :=
  match ds with
  | [] => Ok (tt, σ)
  | d :: ds => '(_, σ) ← KeccakHash.update h d σ; updates h ds σ
  end.

(** [update(a); update(b); digest()] on a new session. *)
Definition hash_two (a b : list byte) (σ : Store.t)
    : result (list byte * Store.t) :=
  '(h, σ) ← KeccakHash.init σ;
  '(_, σ) ← KeccakHash.update h a σ;
  '(_, σ) ← KeccakHash.update h b σ;
  KeccakHash.digest h σ.

Lemma Keccak256Sponge_sponge0 : Keccak256Sponge sponge0.
Proof.
  unfold Keccak256Sponge, Keccak256State, sponge0. simpl.
  split_and!; try done; try lia. apply shape_zero.
Qed.

Lemma sponge_init :
  KeccakSponge.init 1088 (1088 + 512) multirate_padding keccak_f = Ok sponge0.
Proof. reflexivity. Qed.

Lemma hash_init (σ : Store.t) :
  KeccakHash.init σ = Ok (KeccakHash.mk 256 (length σ) 32 136, σ ++ [sponge0]).
Proof. unfold KeccakHash.init. rewrite sponge_init, bind_Ok. reflexivity. Qed.

Lemma store_call {A} (r : Store.ref) (σ : Store.t) (sp sp' : KeccakSponge.t)
    (a : A) (method : KeccakSponge.t -> result (A * KeccakSponge.t)) :
  σ !! r = Some sp -> method sp = Ok (a, sp') ->
  Store.call r method σ = Ok (a, <[r := sp']> σ).
Proof.
  intros Hr Hm. unfold Store.call, Store.load. by rewrite Hr, bind_Ok, Hm, bind_Ok.
Qed.

(** A call on the object allocated last. *)
Lemma store_call_last {A} (σ : Store.t) (sp : KeccakSponge.t)
    (method : KeccakSponge.t -> result (A * KeccakSponge.t)) :
  Store.call (length σ) method (σ ++ [sp])
    = ('(a, sp') ← method sp; Ok (a, σ ++ [sp'])).
Proof.
  unfold Store.call, Store.load. rewrite list_lookup_middle by done.
  rewrite bind_Ok. destruct (method sp) as [[a sp']| | |]; try done.
  rewrite !bind_Ok. do 2 f_equal.
  rewrite insert_app_r_alt by done. by rewrite Nat.sub_diag.
Qed.

Lemma update_spec (h : KeccakHash.t) (σ : Store.t) (sp : KeccakSponge.t)
    (data : list byte) :
  σ !! KeccakHash.sponge h = Some sp -> Keccak256Sponge sp ->
  exists sp',
    KeccakSponge.absorb sp (KeccakHash.list_of_bytes data) = Ok sp'
    /\ Keccak256Sponge sp'
    /\ KeccakHash.update h data σ = Ok (tt, <[KeccakHash.sponge h := sp']> σ).
Proof.
  intros Hr Hsp.
  destruct (absorb_total sp (KeccakHash.list_of_bytes data)) as (sp' & Habs & Hsp');
    [by apply Keccak256Sponge_wiring|].
  exists sp'. split_and!; [done..|].
  unfold KeccakHash.update. apply (store_call _ _ sp); [done|].
  by rewrite Habs, bind_Ok.
Qed.

(** [digest] works on a copy placed after the existing objects, and
    returns the store with that one object added. *)
Lemma digest_unfold (h : KeccakHash.t) (σ : Store.t) (sp : KeccakSponge.t) :
  σ !! KeccakHash.sponge h = Some sp ->
  KeccakHash.digest h σ =
    (final ← KeccakSponge.absorb_final sp;
     '(out_bytes, final) ← KeccakSponge.squeeze final (KeccakHash.digest_size h);
     out ← KeccakState.ilist2bytes out_bytes;
     Ok (out, σ ++ [final])).
Proof.
  intros Hr. unfold KeccakHash.digest, Store.copy, Store.load, Store.alloc.
  rewrite Hr, !bind_Ok. rewrite store_call_last.
  destruct (KeccakSponge.absorb_final sp) as [fin| | |]; try done.
  rewrite !bind_Ok. rewrite store_call_last.
  destruct (KeccakSponge.squeeze fin _) as [[out fin']| | |]; try done.
Qed.

Lemma digest_frame (h : KeccakHash.t) (σ σ' : Store.t) (d : list byte) :
  KeccakHash.digest h σ = Ok (d, σ') -> exists final, σ' = σ ++ [final].
Proof.
  destruct (σ !! KeccakHash.sponge h) as [sp|] eqn:Hr.
  - rewrite (digest_unfold h σ sp Hr).
    destruct (KeccakSponge.absorb_final sp) as [fin| | |]; try done.
    rewrite bind_Ok.
    destruct (KeccakSponge.squeeze fin _) as [[out fin']| | |]; try done.
    rewrite bind_Ok.
    destruct (KeccakState.ilist2bytes out) as [bs| | |]; try done.
    rewrite bind_Ok. intros [= _ <-]. by exists fin'.
  - unfold KeccakHash.digest, Store.copy, Store.load. by rewrite Hr.
Qed.

Lemma digest_spec (h : KeccakHash.t) (σ : Store.t) (sp : KeccakSponge.t) :
  σ !! KeccakHash.sponge h = Some sp -> Keccak256Sponge sp ->
  KeccakHash.digest_size h = 32 ->
  exists d final,
    digest_of sp = Ok d /\ length d = 32%nat
    /\ KeccakHash.digest h σ = Ok (d, σ ++ [final]).
Proof.
  intros Hr Hsp Hsize.
  destruct (digest_of_total sp Hsp) as (d & Hd & Hlen).
  rewrite (digest_unfold h σ sp Hr), Hsize.
  exists d. rewrite Hd. unfold digest_of in Hd.
  destruct (KeccakSponge.absorb_final sp) as [fin| | |]; try done.
  cbn [mbind result_bind] in Hd |- *.
  destruct (KeccakSponge.squeeze fin 32) as [[out fin']| | |]; try done.
  cbn [mbind result_bind] in Hd |- *. rewrite Hd.
  by exists fin'.
Qed.

(** Several updates are one update with the concatenation. *)
Lemma updates_spec (h : KeccakHash.t) (ds : list (list byte)) :
  forall (σ : Store.t) (sp : KeccakSponge.t),
    σ !! KeccakHash.sponge h = Some sp -> Keccak256Sponge sp ->
    exists sp',
      KeccakSponge.absorb sp (KeccakHash.list_of_bytes (concat ds)) = Ok sp'
      /\ Keccak256Sponge sp'
      /\ updates h ds σ = Ok (tt, <[KeccakHash.sponge h := sp']> σ).
Proof.
  induction ds as [|d ds IH]; intros σ sp Hr Hsp.
  - exists sp. simpl. rewrite absorb_nil by done. split_and!; [done..|].
    by rewrite list_insert_id.
  - destruct (update_spec h σ sp d Hr Hsp) as (sp1 & Habs1 & Hsp1 & Hupd).
    destruct (IH (<[KeccakHash.sponge h := sp1]> σ) sp1) as (sp' & Habs & Hsp' & Hupds).
    { apply list_lookup_insert_eq. by eapply lookup_lt_Some. }
    { done. }
    exists sp'. split_and!; [|done|].
    + simpl. unfold KeccakHash.list_of_bytes in *. rewrite fmap_app.
      rewrite absorb_app by by apply Keccak256Sponge_wiring.
      by rewrite Habs1, bind_Ok.
    + simpl. rewrite Hupd, bind_Ok, Hupds. by rewrite list_insert_insert_eq.
Qed.

Lemma keccak256_spec (data : list byte) (σ : Store.t) :
  exists sp d final,
    KeccakSponge.absorb sponge0 (KeccakHash.list_of_bytes data) = Ok sp
    /\ Keccak256Sponge sp
    /\ digest_of sp = Ok d /\ length d = 32%nat
    /\ keccak256 data σ = Ok (d, σ ++ [sp] ++ [final]).
Proof.
  unfold keccak256. rewrite hash_init, bind_Ok.
  set (h := KeccakHash.mk 256 (length σ) 32 136).
  destruct (update_spec h (σ ++ [sponge0]) sponge0 data)
    as (sp & Habs & Hsp & Hupd).
  { by apply list_lookup_middle. }
  { apply Keccak256Sponge_sponge0. }
  rewrite Hupd, bind_Ok.
  replace (<[KeccakHash.sponge h := sp]> (σ ++ [sponge0])) with (σ ++ [sp]).
  2:{ simpl. rewrite insert_app_r_alt by done. by rewrite Nat.sub_diag. }
  destruct (digest_spec h (σ ++ [sp]) sp) as (d & final & Hd & Hlen & Hdig).
  { by apply list_lookup_middle. }
  { done. }
  { done. }
  exists sp, d, final. rewrite Hdig, <- app_assoc. done.
Qed.

Lemma digest_of_sponge0 :
  digest_of sponge0 =
    Ok [ xc5; xd2; x46; x01; x86; xf7; x23; x3c; x92; x7e; x7d; xb2; xdc; xc7;
         x03; xc0; xe5; x00; xb6; x53; xca; x82; x27; x3b; x7b; xfa; xd8; x04;
         x5d; x85; xa4; x70 ].
Proof. vm_compute. reflexivity. Qed.

(** C1. [keccak256] of the empty byte string returns, from any store,
    the 32 bytes whose lowercase hexadecimal rendering is
    c5d2460186f7233c927e7db2dcc703c0e500b653ca82273b7bfad8045d85a470. *)
Theorem keccak256_empty (σ : Store.t) :
  exists d σ',
    keccak256 [] σ = Ok (d, σ')
    /\ length d = 32%nat
    /\ KeccakHash.hex d
         = "c5d2460186f7233c927e7db2dcc703c0e500b653ca82273b7bfad8045d85a470"%string
    /\ keccak256_hex [] σ
         = Ok ("c5d2460186f7233c927e7db2dcc703c0e500b653ca82273b7bfad8045d85a470"%string,
               σ').
Proof.
  destruct (keccak256_spec [] σ) as (sp & d & final & Habs & _ & Hd & Hlen & Hrun).
  change (KeccakHash.list_of_bytes []) with (@nil Z) in Habs.
  rewrite absorb_nil in Habs by apply Keccak256Sponge_sponge0.
  injection Habs as <-. rewrite digest_of_sponge0 in Hd. injection Hd as <-.
  eexists _, _. split; [exact Hrun|]. split; [done|]. split; [reflexivity|].
  unfold keccak256_hex. rewrite Hrun, bind_Ok. reflexivity.
Qed.

(** C2. For all byte strings [a] and [b], [update(a); update(b);
    digest()] and [update(a + b); digest()], each on a new session,
    return the same 32 bytes. *)
Theorem update_incremental (a b : list byte) (σ : Store.t) :
  exists d σ1 σ2,
    hash_two a b σ = Ok (d, σ1)
    /\ keccak256 (a ++ b) σ = Ok (d, σ2)
    /\ length d = 32%nat.
Proof.
  destruct (keccak256_spec (a ++ b) σ)
    as (sp & d & final & Habs & Hsp & Hd & Hlen & Hrun).
  exists d. unfold hash_two. rewrite hash_init, bind_Ok.
  set (h := KeccakHash.mk 256 (length σ) 32 136).
  destruct (updates_spec h [a; b] (σ ++ [sponge0]) sponge0)
    as (sp' & Habs' & Hsp' & Hupd).
  { by apply list_lookup_middle. }
  { apply Keccak256Sponge_sponge0. }
  cbn [concat] in Habs'. cbn [updates] in Hupd. rewrite app_nil_r in Habs'.
  rewrite Habs in Habs'. injection Habs' as <-.
  destruct (KeccakHash.update h a (σ ++ [sponge0])) as [[[] σa]| | |]; try done.
  cbn [mbind result_bind] in Hupd |- *.
  destruct (KeccakHash.update h b σa) as [[[] σb]| | |]; try done.
  cbn [mbind result_bind] in Hupd |- *. injection Hupd as ->.
  destruct (digest_spec h (<[KeccakHash.sponge h := sp]> (σ ++ [sponge0])) sp)
    as (d' & final' & Hd' & _ & Hdig).
  { apply list_lookup_insert_eq. simpl. rewrite length_app. simpl. lia. }
  { done. }
  { done. }
  rewrite Hd in Hd'. injection Hd' as <-.
  eexists _, _. split_and!; [exact Hdig|exact Hrun|done].
Qed.

(** C3. After any sequence of updates on a new session, [digest]
    returns and leaves the live sponge, state matrix and buffer, as
    it was (and so every object of the store); hence a second [digest]
    returns the same bytes, and [update(b)] followed by [digest]
    returns the digest of everything absorbed so far.  [digest] never
    changes an existing object, in any store. *)
Theorem digest_snapshot (ds : list (list byte)) (b : list byte) (σ0 : Store.t) :
  (exists h σ1 σ2 sp d σ3 σ4 σ5 d' σ6 σ7,
     KeccakHash.init σ0 = Ok (h, σ1)
     /\ updates h ds σ1 = Ok (tt, σ2)
     /\ σ2 !! KeccakHash.sponge h = Some sp
     /\ KeccakHash.digest h σ2 = Ok (d, σ3)
     /\ σ3 !! KeccakHash.sponge h = Some sp
     /\ KeccakHash.digest h σ3 = Ok (d, σ4)
     /\ KeccakHash.update h b σ3 = Ok (tt, σ5)
     /\ KeccakHash.digest h σ5 = Ok (d', σ6)
     /\ keccak256 (concat ds ++ b) σ0 = Ok (d', σ7))
  /\ (forall h σ d σ' r o,
        KeccakHash.digest h σ = Ok (d, σ') -> σ !! r = Some o -> σ' !! r = Some o).
Proof.
  split.
  - set (h := KeccakHash.mk 256 (length σ0) 32 136).
    assert ((σ0 ++ [sponge0]) !! KeccakHash.sponge h = Some sponge0) as Hr1
      by by apply list_lookup_middle.
    destruct (updates_spec h ds (σ0 ++ [sponge0]) sponge0 Hr1 Keccak256Sponge_sponge0)
      as (sp & Habs & Hsp & Hupds).
    set (σ2 := <[KeccakHash.sponge h := sp]> (σ0 ++ [sponge0])) in *.
    assert (σ2 !! KeccakHash.sponge h = Some sp) as Hr2.
    { apply list_lookup_insert_eq. by eapply lookup_lt_Some. }
    destruct (digest_spec h σ2 sp Hr2 Hsp eq_refl) as (d & fin & Hd & _ & Hdig).
    assert ((σ2 ++ [fin]) !! KeccakHash.sponge h = Some sp) as Hr3
      by by apply lookup_app_l_Some.
    destruct (digest_spec h (σ2 ++ [fin]) sp Hr3 Hsp eq_refl)
      as (d2 & fin2 & Hd2 & _ & Hdig2).
    rewrite Hd in Hd2. injection Hd2 as <-.
    destruct (update_spec h (σ2 ++ [fin]) sp b Hr3 Hsp) as (spb & Habsb & Hspb & Hupd).
    set (σ5 := <[KeccakHash.sponge h := spb]> (σ2 ++ [fin])) in *.
    assert (σ5 !! KeccakHash.sponge h = Some spb) as Hr5.
    { apply list_lookup_insert_eq. by eapply lookup_lt_Some. }
    destruct (digest_spec h σ5 spb Hr5 Hspb eq_refl) as (d' & fin' & Hd' & _ & Hdig').
    destruct (keccak256_spec (concat ds ++ b) σ0)
      as (sp'' & d'' & fin'' & Habs'' & _ & Hd'' & _ & Hrun).
    unfold KeccakHash.list_of_bytes in Habs''. rewrite fmap_app in Habs''.
    rewrite absorb_app in Habs''
      by apply Keccak256Sponge_wiring, Keccak256Sponge_sponge0.
    fold (KeccakHash.list_of_bytes (concat ds)) in Habs''.
    fold (KeccakHash.list_of_bytes b) in Habs''.
    rewrite Habs, bind_Ok, Habsb in Habs''. injection Habs'' as <-.
    rewrite Hd' in Hd''. injection Hd'' as <-.
    exists h, (σ0 ++ [sponge0]), σ2, sp, d, (σ2 ++ [fin]), ((σ2 ++ [fin]) ++ [fin2]),
      σ5, d', (σ5 ++ [fin']), (σ0 ++ [spb] ++ [fin'']).
    split_and!; done.
  - intros h σ d σ' r o Hdig Hr.
    destruct (digest_frame h σ σ' d Hdig) as (fin & ->).
    by apply lookup_app_l_Some.
Qed.

(** C9. On a Keccak-256 sponge [absorb] returns, whatever the data,
    with a buffer strictly shorter than [bitrate_bytes] (and the
    sponge is again a Keccak-256 sponge, so this holds after every
    call), and [absorb_final] returns with an empty buffer.  On any
    sponge at all, a call of [absorb] that returns leaves less than
    [bitrate_bytes] bytes, and a call of [absorb_final] that returns
    leaves none. *)
Theorem buffer_invariant (sp : KeccakSponge.t) (data : list Z) :
  Keccak256Sponge sp ->
  (exists sp',
     KeccakSponge.absorb sp data = Ok sp'
     /\ len (KeccakSponge.buffer sp')
          < KeccakState.bitrate_bytes (KeccakSponge.state sp')
     /\ Keccak256Sponge sp')
  /\ (exists sp'',
        KeccakSponge.absorb_final sp = Ok sp''
        /\ KeccakSponge.buffer sp'' = [])
  /\ (forall any any' bytes,
        KeccakSponge.absorb any bytes = Ok any' ->
        len (KeccakSponge.buffer any')
          < KeccakState.bitrate_bytes (KeccakSponge.state any'))
  /\ (forall any any',
        KeccakSponge.absorb_final any = Ok any' -> KeccakSponge.buffer any' = []).
Proof.
  intros Hsp. split_and!.
  - destruct (absorb_total sp data (Keccak256Sponge_wiring sp Hsp))
      as (sp' & Habs & Hsp').
    exists sp'. split_and!; [done| |done].
    destruct Hsp' as ((_ & _ & -> & _) & _ & _ & Hbuf). unfold len. lia.
  - destruct (absorb_final_total sp Hsp) as (st' & _ & Hfin). by eexists.
  - intros any any' bytes. unfold KeccakSponge.absorb.
    generalize (length (KeccakSponge.buffer
                          (KeccakSponge.set_buffer any
                             (KeccakSponge.buffer any ++ bytes)))).
    generalize (KeccakSponge.set_buffer any (KeccakSponge.buffer any ++ bytes)).
    intros cur fuel. revert cur.
    induction fuel as [|fuel IH]; intros cur; rewrite absorb_loop_unfold.
    + destruct (Z.geb_spec (len (KeccakSponge.buffer cur))
                  (KeccakState.bitrate_bytes (KeccakSponge.state cur)));
        [done|]. by intros [= <-].
    + destruct (Z.geb_spec (len (KeccakSponge.buffer cur))
                  (KeccakState.bitrate_bytes (KeccakSponge.state cur)));
        [|by intros [= <-]].
      destruct (KeccakSponge.absorb_block cur _) as [nxt| | |]; try done.
      rewrite bind_Ok. apply IH.
  - intros any any'. unfold KeccakSponge.absorb_final.
    destruct (KeccakSponge.absorb_block any _) as [nxt| | |]; try done.
    rewrite bind_Ok. by intros [= <-].
Qed.

Lemma buffer_invariant_witness :
  exists sp',
    KeccakSponge.absorb sponge0 (replicate 300 0x61) = Ok sp'
    /\ len (KeccakSponge.buffer sp')
         < KeccakState.bitrate_bytes (KeccakSponge.state sp')
    /\ Keccak256Sponge sp'.
Proof.
  exact (proj1 (buffer_invariant sponge0 (replicate 300 0x61)
                  Keccak256Sponge_sponge0)).
Defined.

(** C5, as the code has it.  A block whose length differs from
    [bitrate_bytes] makes the state's [absorb], and the sponge's
    [absorb_block] before it, raise [AssertionError].  [squeeze] checks
    nothing: a zero or negative length returns the empty list and
    leaves the sponge as it was. *)
Theorem contract_violations (sp : KeccakSponge.t) (block : list Z) (length : Z) :
  len block <> KeccakState.bitrate_bytes (KeccakSponge.state sp) ->
  length <= 0 ->
  KeccakState.absorb (KeccakSponge.state sp) block = Raise AssertionError
  /\ KeccakSponge.absorb_block sp block = Raise AssertionError
  /\ KeccakSponge.squeeze sp length = Ok ([], sp).
Proof.
  intros Hblock Hlen. split_and!.
  - by apply state_absorb_wrong_length.
  - by apply absorb_block_wrong_length.
  - by apply sponge_squeeze_nonpositive.
Qed.

Lemma contract_violations_witness :
  KeccakState.absorb (KeccakSponge.state sponge0) [0x01; 0x02] = Raise AssertionError
  /\ KeccakSponge.absorb_block sponge0 [0x01; 0x02] = Raise AssertionError
  /\ KeccakSponge.squeeze sponge0 (-5) = Ok ([], sponge0).
Proof.
  apply (contract_violations sponge0 [0x01; 0x02] (-5)).
  - unfold len. simpl. lia.
  - lia.
Defined.

(** C5 as stated fails: asking a new sponge for [-1] bytes raises
    nothing and returns the empty list. *)
Lemma squeeze_negative_is_silent :
  KeccakSponge.squeeze sponge0 (-1) = Ok ([], sponge0)
  /\ ~ (exists e, KeccakSponge.squeeze sponge0 (-1) = Raise e).
Proof.
  assert (KeccakSponge.squeeze sponge0 (-1) = Ok ([], sponge0)) as H
    by reflexivity.
  split; [done|]. intros [e He]. rewrite H in He. discriminate.
Qed.


(** * Further properties of the code *)

(** ** Lane helpers *)

(** X1. [rol] on a 64-bit value is a rotation: bit [i] of the result
    is bit [(i - n) mod 64] of the input, and rotating by [a] and then
    by [b] is rotating by [(a + b) mod 64]. *)
Theorem rol_rotates (v a b i : Z) :
  0 <= v < 2 ^ 64 -> 0 <= a <= 63 -> 0 <= b <= 63 -> 0 <= i < 64 ->
  Z.testbit (rol v a 64) i = Z.testbit v ((i - a) mod 64)
  /\ rol (rol v a 64) b 64 = rol v ((a + b) mod 64) 64.
Proof.
  intros Hv Ha Hb Hi.
  assert (forall w n j, 0 <= w < 2 ^ 64 -> 0 <= n <= 63 -> 0 <= j < 64 ->
            Z.testbit (rol w n 64) j = Z.testbit w ((j - n) mod 64)) as Hbit.
  { intros w n j Hw Hn Hj. rewrite rol_testbit by lia.
    destruct (Z.ltb_spec j n).
    - f_equal. replace (j - n) with (j + 64 - n + (-1) * 64) by lia.
      rewrite Z.mod_add by lia. rewrite Z.mod_small; lia.
    - destruct (Z.ltb_spec j 64); [|lia]. simpl. f_equal.
      rewrite Z.mod_small; lia. }
  split; [by apply Hbit|].
  apply Z.bits_inj'. intros j Hj.
  pose proof (Z.mod_pos_bound (a + b) 64 ltac:(lia)) as Hab.
  destruct (Z_lt_le_dec j 64) as [Hlt|Hge].
  - pose proof (Z.mod_pos_bound (j - b) 64 ltac:(lia)).
    rewrite (Hbit (rol v a 64) b j) by (try apply rol_range; lia).
    rewrite (Hbit v a) by lia. rewrite (Hbit v ((a + b) mod 64) j) by lia.
    f_equal. rewrite Zminus_mod_idemp_l, Zminus_mod_idemp_r. f_equal. lia.
  - rewrite !(testbit_above _ 64 j); try done; apply rol_range; try lia.
    apply rol_range; lia.
Qed.

Lemma rol_rotates_witness :
  Z.testbit (rol 0x8000000000000001 3 64) 2 = Z.testbit 0x8000000000000001 ((2 - 3) mod 64)
  /\ rol (rol 0x8000000000000001 3 64) 62 64 = rol 0x8000000000000001 ((3 + 62) mod 64) 64.
Proof. apply (rol_rotates 0x8000000000000001 3 62 2); lia. Defined.

(** X2. [bits2bytes] is the ceiling of the division by 8: the least
    number of bytes that hold [x] bits, for every integer [x]; a
    multiple of 8 gives the exact quotient. *)
Theorem bits2bytes_ceiling (x k : Z) :
  x <= 8 * bits2bytes x < x + 8 /\ bits2bytes (8 * k) = k.
Proof.
  unfold bits2bytes. split.
  - pose proof (Z.div_mod (x + 7) 8 ltac:(lia)).
    pose proof (Z.mod_pos_bound (x + 7) 8 ltac:(lia)). lia.
  - replace (8 * k + 7) with (7 + k * 8) by lia.
    rewrite Z.div_add by lia. reflexivity.
Qed.

(** ** Padding *)

(** X3. For a buffer shorter than the block, the pad fills the block
    exactly, consists of bytes, starts with a byte whose lowest bit is
    set and ends with a byte whose highest bit is set.  For a buffer
    longer than the block the pad is the two bytes [0x01], [0x80]
    whatever the excess. *)
Theorem multirate_padding_shape (used_bytes align_bytes : Z) :
  (0 <= used_bytes < align_bytes ->
   used_bytes + len (multirate_padding used_bytes align_bytes) = align_bytes
   /\ Forall (fun c => 0 <= c < 256) (multirate_padding used_bytes align_bytes)
   /\ exists first final,
        head (multirate_padding used_bytes align_bytes) = Some first
        /\ last (multirate_padding used_bytes align_bytes) = Some final
        /\ Z.testbit first 0 = true /\ Z.testbit final 7 = true)
  /\ (align_bytes < used_bytes ->
      multirate_padding used_bytes align_bytes = [0x01; 0x80]).
Proof.
  split.
  - intros Hu. split_and!.
    + rewrite multirate_padding_len by done. lia.
    + apply multirate_padding_bytes.
    + unfold multirate_padding, times.
      destruct (Z.eqb_spec (align_bytes - used_bytes) 0); [lia|].
      destruct (Z.eqb_spec (align_bytes - used_bytes) 1).
      * by exists 0x81, 0x81.
      * exists 0x01, 0x80. split_and!; try done.
        rewrite app_assoc. apply last_snoc.
  - intros Hu. unfold multirate_padding, times.
    destruct (Z.eqb_spec (align_bytes - used_bytes) 0); [lia|].
    destruct (Z.eqb_spec (align_bytes - used_bytes) 1); [lia|].
    replace (Z.to_nat (align_bytes - used_bytes - 2)) with 0%nat by lia. done.
Qed.

Lemma multirate_padding_shape_witness :
  3 + len (multirate_padding 3 136) = 136
  /\ multirate_padding 140 136 = [0x01; 0x80].
Proof.
  split.
  - apply (proj1 (multirate_padding_shape 3 136)). lia.
  - apply (proj2 (multirate_padding_shape 140 136)). lia.
Defined.

(** ** Lanes and bytes *)

(** A matrix of 64-bit lanes. *)
Definition lanes64 (a : list (list Z)) : Prop :=
  Forall (Forall (fun v => 0 <= v < 2 ^ 64)) a.

Lemma index_Forall {A} `{!Inhabited A} (P : A -> Prop) (l : list A) (i : Z) :
  P inhabitant -> Forall P l -> P (l.[i]).
Proof.
  intros Hd Hl. unfold index.
  destruct (l !! Z.to_nat i) as [v|] eqn:E.
  - rewrite (list_lookup_total_correct _ _ _ E).
    by eapply Forall_lookup_1.
  - by rewrite list_lookup_total_alt, E.
Qed.

Lemma lanes64_index (a : list (list Z)) (x y : Z) :
  lanes64 a -> 0 <= a.[x].[y] < 2 ^ 64.
Proof.
  intros Ha. apply (index_Forall (fun v => 0 <= v < 2 ^ 64)); [done|].
  by apply (index_Forall (Forall (fun v => 0 <= v < 2 ^ 64))).
Qed.

Lemma lanes64_set2 (a : list (list Z)) (x y v : Z) :
  lanes64 a -> 0 <= v < 2 ^ 64 -> lanes64 (set2 a x y v).
Proof.
  intros Ha Hv. unfold lanes64, set2.
  apply Forall_insert; [done|]. apply Forall_insert; [|done].
  by apply (index_Forall (Forall (fun v => 0 <= v < 2 ^ 64))).
Qed.

Lemma lanes64_zero : lanes64 KeccakState.zero.
Proof. unfold lanes64. repeat constructor; done. Qed.

Lemma bytes2lane_cons_add (c : Z) (bb : list Z) :
  0 <= c < 256 ->
  KeccakState.bytes2lane (c :: bb) = 256 * KeccakState.bytes2lane bb + c.
Proof.
  intros Hc. rewrite bytes2lane_cons.
  assert (Z.land (Z.shiftl (KeccakState.bytes2lane bb) 8) c = 0) as Hdisj.
  { apply Z.bits_inj'. intros i Hi. rewrite Z.land_spec, Z.bits_0.
    destruct (Z_lt_le_dec i 8).
    - by rewrite Z.shiftl_spec_low by lia.
    - rewrite (testbit_above c 8 i) by (simpl; lia). apply andb_false_r. }
  rewrite <- Z.lxor_lor, <- Z.add_nocarry_lxor, Z.shiftl_mul_pow2 by (done || lia).
  lia.
Qed.

Lemma bytes2lane_range (bb : list Z) :
  Forall (fun c => 0 <= c < 256) bb ->
  0 <= KeccakState.bytes2lane bb < 2 ^ (8 * len bb).
Proof.
  induction 1 as [|c bb Hc Hbb IH].
  - done.
  - rewrite bytes2lane_cons_add by done.
    unfold len in *. rewrite length_cons.
    replace (8 * Z.of_nat (S (length bb))) with (8 + 8 * Z.of_nat (length bb)) by lia.
    rewrite Z.pow_add_r by lia. change (2 ^ 8) with 256. lia.
Qed.

Lemma bytes2lane_bytes (bb : list Z) :
  Forall (fun c => 0 <= c < 256) bb ->
  (fun k => Z.land (Z.shiftr (KeccakState.bytes2lane bb) (8 * k)) 0xFF)
    <$> seqZ 0 (len bb) = bb.
Proof.
  induction 1 as [|c bb Hc Hbb IH].
  - done.
  - pose proof (bytes2lane_range bb Hbb) as Hr.
    unfold len in *. rewrite length_cons, Nat2Z.inj_succ, seqZ_cons by lia.
    rewrite fmap_cons. f_equal.
    + rewrite bytes2lane_cons_add by done. change (8 * 0) with 0.
      rewrite Z.shiftr_0_r. change 255 with (Z.ones 8).
      rewrite Z.land_ones by lia. change (2 ^ 8) with 256.
      rewrite Z.add_comm, Z.mul_comm, Z.mod_add by lia.
      apply Z.mod_small. lia.
    + rewrite Z.pred_succ. change (Z.succ 0) with 1.
      replace (seqZ 1 (Z.of_nat (length bb)))
        with (Z.add 1 <$> seqZ 0 (Z.of_nat (length bb)))
        by apply (fmap_add_seqZ 1 0).
      rewrite <- list_fmap_compose.
      etransitivity; [|exact IH].
      apply list_fmap_ext. intros i k Hk. simpl.
      apply lookup_seqZ in Hk as [-> _].
      replace (8 * (1 + (0 + Z.of_nat i))) with (8 + 8 * (0 + Z.of_nat i)) by lia.
      rewrite <- Z.shiftr_shiftr by lia. do 2 f_equal.
      rewrite bytes2lane_cons_add by done.
      rewrite Z.shiftr_div_pow2 by lia. change (2 ^ 8) with 256.
      rewrite Z.add_comm, Z.mul_comm, Z.div_add by lia.
      rewrite Z.div_small; lia.
Qed.

(** X4. Eight bytes read as a lane and written back are the same eight
    bytes, and the lane they make is a 64-bit value: [lane2bytes] is
    the inverse of [bytes2lane] on byte strings of lane length. *)
Theorem lane_bytes_roundtrip (bb : list Z) :
  length bb = 8%nat -> Forall (fun c => 0 <= c < 256) bb ->
  0 <= KeccakState.bytes2lane bb < 2 ^ 64
  /\ KeccakState.lane2bytes (KeccakState.bytes2lane bb) 64 = bb.
Proof.
  intros Hlen Hbb. split.
  - pose proof (bytes2lane_range bb Hbb) as Hr.
    unfold len in Hr. by rewrite Hlen in Hr.
  - rewrite <- (bytes2lane_bytes bb Hbb) at 2.
    unfold len. rewrite Hlen.
    unfold KeccakState.lane2bytes, range8.
    by rewrite <- list_fmap_compose.
Qed.

Lemma lane_bytes_roundtrip_witness :
  0 <= KeccakState.bytes2lane [0x01; 0x23; 0x45; 0x67; 0x89; 0xAB; 0xCD; 0xEF] < 2 ^ 64
  /\ KeccakState.lane2bytes
       (KeccakState.bytes2lane [0x01; 0x23; 0x45; 0x67; 0x89; 0xAB; 0xCD; 0xEF]) 64
     = [0x01; 0x23; 0x45; 0x67; 0x89; 0xAB; 0xCD; 0xEF].
Proof.
  apply (lane_bytes_roundtrip [0x01; 0x23; 0x45; 0x67; 0x89; 0xAB; 0xCD; 0xEF]).
  - reflexivity.
  - repeat constructor; lia.
Defined.

(** ** The state as a byte string *)

Lemma shape_eta (a : list (list Z)) :
  shape a ->
  a = (fun x => (fun y => a.[x].[y]) <$> KeccakState.rangeH) <$> KeccakState.rangeW.
Proof. intros Ha. explode a Ha. reflexivity. Qed.

Lemma Forall_range5 (P : Z -> Prop) :
  (forall x, 0 <= x < 5 -> P x) -> Forall P (range 5).
Proof. intros HP. apply Forall_seqZ. intros x Hx. apply HP. lia. Qed.

(** Two 5x5 matrices with the same lanes are equal. *)
Lemma shape_ext (a b : list (list Z)) :
  shape a -> shape b ->
  (forall x y, position (x, y) -> a.[x].[y] = b.[x].[y]) -> a = b.
Proof.
  intros Ha Hb Hab. rewrite (shape_eta a Ha), (shape_eta b Hb).
  apply Forall_fmap_ext, Forall_range5. intros x Hx.
  apply Forall_fmap_ext, Forall_range5. intros y Hy.
  by apply Hab.
Qed.

Lemma bind_positions {A} (f g : Z -> Z -> list A) :
  (forall x y, position (x, y) -> f x y = g x y) ->
  (y ← KeccakState.rangeH; x ← KeccakState.rangeW; f x y)
  = (y ← KeccakState.rangeH; x ← KeccakState.rangeW; g x y).
Proof.
  intros Hfg.
  change KeccakState.rangeH with [0; 1; 2; 3; 4].
  change KeccakState.rangeW with [0; 1; 2; 3; 4].
  simpl. by rewrite !Hfg by (split; simpl; lia).
Qed.

(** The lanes after [set_bytes]. *)
Lemma set_bytes_lanes (st : KeccakState.t) (bb : list Z) (x y : Z) :
  shape (KeccakState.s st) -> position (x, y) ->
  (KeccakState.s (KeccakState.set_bytes st bb)).[x].[y]
    = KeccakState.bytes2lane (slice bb (lane_offset x y) (lane_offset x y + 8)).
Proof.
  intros Hs [[??] [??]]; cbn [fst snd] in *. unfold KeccakState.set_bytes.
  destruct st as [br b brb lw m].
  cbn [KeccakState.s KeccakState.set_s KeccakState.bitrate KeccakState.b
       KeccakState.bitrate_bytes KeccakState.lanew] in Hs |- *.
  explode m Hs.
  destruct (foldl _ _ _) as [m' i'] eqn:Hfold.
  cbv -[slice KeccakState.bytes2lane] in Hfold.
  injection Hfold as <- _.
  cbn [KeccakState.s].
  cases5 x; cases5 y; reflexivity.
Qed.

Lemma set_bytes_shape (st : KeccakState.t) (bb : list Z) :
  shape (KeccakState.s st) -> shape (KeccakState.s (KeccakState.set_bytes st bb)).
Proof.
  intros Hs. unfold KeccakState.set_bytes.
  assert (shape (foldl (fun acc y => foldl (KeccakState.set_lane bb y) acc
                                       KeccakState.rangeW)
                   (KeccakState.s st, 0%nat) KeccakState.rangeH).1) as Hm.
  { apply (foldl_invariant (fun acc => shape acc.1)); [|done].
    intros acc y Hacc.
    apply (foldl_invariant (fun acc => shape acc.1)); [|done].
    intros [m i] x Hm. by apply shape_set2. }
  by destruct (foldl _ _ _) as [m i].
Qed.

(** Twenty-five slices of eight make up a string of 200. *)
Fixpoint chunks (n i : nat) (bb : list Z) : list Z :=
  match n with
  | O => []
  | S n => slice bb i (i + 8) ++ chunks n (i + 8) bb
  end.

Lemma chunks_take (n : nat) :
  forall i bb, chunks n i bb = take (8 * n) (drop i bb).
Proof.
  induction n as [|n IH]; intros i bb.
  - done.
  - cbn [chunks]. rewrite IH. unfold slice.
    replace (i + 8 - i)%nat with 8%nat by lia.
    replace (8 * S n)%nat with (8 + 8 * n)%nat by lia.
    rewrite <- take_take_drop, drop_drop. done.
Qed.

Lemma slices_flat (bb : list Z) :
  length bb = 200%nat ->
  (y ← KeccakState.rangeH; x ← KeccakState.rangeW;
   slice bb (lane_offset x y) (lane_offset x y + 8)) = bb.
Proof.
  intros Hlen. transitivity (chunks 25 0 bb).
  - change KeccakState.rangeH with [0; 1; 2; 3; 4].
    change KeccakState.rangeW with [0; 1; 2; 3; 4].
    cbn [chunks mbind list_bind]. rewrite !app_nil_r, <- !app_assoc. reflexivity.
  - rewrite chunks_take, drop_0. apply take_ge. lia.
Qed.

Lemma slice_bytes (bb : list Z) (x y : Z) :
  length bb = 200%nat -> Forall (fun c => 0 <= c < 256) bb -> position (x, y) ->
  length (slice bb (lane_offset x y) (lane_offset x y + 8)) = 8%nat
  /\ Forall (fun c => 0 <= c < 256)
       (slice bb (lane_offset x y) (lane_offset x y + 8)).
Proof.
  intros Hlen Hbb [[??] [??]]; cbn [fst snd] in *. unfold slice, lane_offset. split.
  - rewrite length_take, length_drop. lia.
  - by apply Forall_take, Forall_drop.
Qed.

(** X5. [get_bytes] and [set_bytes] are inverse to each other on a
    Keccak-256 state: storing 200 bytes and reading the state back
    gives the same 200 bytes, with every lane a 64-bit value; and
    storing what [get_bytes] returns leaves a state of 64-bit lanes
    as it is. *)
Theorem state_bytes_roundtrip (st : KeccakState.t) (bb : list Z) :
  Keccak256State st ->
  (length bb = 200%nat -> Forall (fun c => 0 <= c < 256) bb ->
   KeccakState.get_bytes (KeccakState.set_bytes st bb) = bb
   /\ Keccak256State (KeccakState.set_bytes st bb)
   /\ lanes64 (KeccakState.s (KeccakState.set_bytes st bb)))
  /\ (lanes64 (KeccakState.s st) ->
      KeccakState.set_bytes st (KeccakState.get_bytes st) = st).
Proof.
  intros (Hr & Hb & Hrb & Hw & Hs). split.
  - intros Hlen Hbb.
    assert (Keccak256State (KeccakState.set_bytes st bb)) as Hst'.
    { pose proof (set_bytes_shape st bb Hs) as Hs'.
      unfold KeccakState.set_bytes in *.
      destruct (foldl _ _ _) as [m i]. by split_and!. }
    split_and!; [|done|].
    + destruct Hst' as (_ & Hb' & _ & Hw' & _).
      rewrite get_bytes_flat by done.
      etransitivity; [|exact (slices_flat bb Hlen)].
      apply bind_positions. intros x y Hxy.
      rewrite set_bytes_lanes by done.
      by apply lane_bytes_roundtrip; apply slice_bytes.
    + destruct Hst' as (_ & _ & _ & _ & Hs').
      rewrite (shape_eta _ Hs').
      apply Forall_fmap, Forall_range5. intros x Hx. cbv [compose].
      apply Forall_fmap, Forall_range5. intros y Hy. cbv [compose].
      rewrite set_bytes_lanes by done.
      by apply lane_bytes_roundtrip; apply slice_bytes.
  - intros H64.
    pose proof (set_bytes_shape st (KeccakState.get_bytes st) Hs) as Hs'.
    assert (KeccakState.s (KeccakState.set_bytes st (KeccakState.get_bytes st))
            = KeccakState.s st) as Heq.
    { apply shape_ext; [done..|]. intros x y Hxy.
      rewrite set_bytes_lanes, get_bytes_slice by done.
      apply bytes2lane_lane2bytes, lanes64_index, H64. }
    unfold KeccakState.set_bytes in *.
    destruct (foldl _ _ _) as [m i]. destruct st.
    unfold KeccakState.set_s in *. cbn in Heq |- *. by subst.
Qed.

Lemma state_bytes_roundtrip_witness :
  KeccakState.get_bytes
    (KeccakState.set_bytes (KeccakState.mk 1088 1600 136 64 KeccakState.zero)
       (replicate 200 0xA5))
  = replicate 200 0xA5.
Proof.
  apply (state_bytes_roundtrip (KeccakState.mk 1088 1600 136 64 KeccakState.zero)
           (replicate 200 0xA5)).
  - split_and!; try reflexivity. apply shape_zero.
  - reflexivity.
  - apply Forall_replicate. lia.
Defined.

(** ** Construction *)

(** X6. A state, and a sponge over it, is constructed exactly when the
    bitrate is a whole number of bytes; any other bitrate raises
    [AssertionError].  The new state is the all-zero 5x5 matrix, its
    byte rate is an eighth of the bitrate, its lane width a
    twenty-fifth of the width, and the new sponge has an empty
    buffer. *)
Theorem init_checks_bitrate (bitrate width : Z) (padfn : Z -> Z -> list Z)
    (permfn : KeccakState.t -> KeccakState.t) :
  (bitrate mod 8 <> 0 ->
   KeccakState.init bitrate width = Raise AssertionError
   /\ KeccakSponge.init bitrate width padfn permfn = Raise AssertionError)
  /\ (bitrate mod 8 = 0 ->
      exists st,
        KeccakState.init bitrate width = Ok st
        /\ KeccakSponge.init bitrate width padfn permfn
             = Ok (KeccakSponge.mk st padfn permfn [])
        /\ 8 * KeccakState.bitrate_bytes st = bitrate
        /\ KeccakState.lanew st = width / 25
        /\ shape (KeccakState.s st)
        /\ forall x y, position (x, y) -> (KeccakState.s st).[x].[y] = 0).
Proof.
  unfold KeccakSponge.init, KeccakState.init. split.
  - intros Hne. by destruct (Z.eqb_spec (bitrate mod 8) 0).
  - intros Heq. rewrite Heq. cbn [Z.eqb assert mbind result_bind].
    eexists. split_and!; try reflexivity.
    + cbn [KeccakState.bitrate_bytes]. unfold bits2bytes.
      pose proof (Z.div_mod bitrate 8 ltac:(lia)) as Hdm.
      rewrite Heq in Hdm.
      replace (bitrate + 7) with (7 + (bitrate / 8) * 8) by lia.
      rewrite Z.div_add by lia. change (7 / 8) with 0. lia.
    + apply shape_zero.
    + intros x y [[??] [??]]; cbn [fst snd KeccakState.s] in *.
      cases5 x; cases5 y; reflexivity.
Qed.

Lemma init_checks_bitrate_witness :
  KeccakState.init 1087 1600 = Raise AssertionError
  /\ exists st, KeccakState.init 1088 1600 = Ok st.
Proof.
  split.
  - apply (proj1 (init_checks_bitrate 1087 1600 multirate_padding keccak_f)). done.
  - destruct (proj2 (init_checks_bitrate 1088 1600 multirate_padding keccak_f))
      as (st & Hst & _); [done|].
    by exists st.
Defined.

(** ** The steps of a round *)

(** The parity of column [x]. *)
Definition column_parity (a : list (list Z)) (x : Z) : Z :=
  Z.lxor (Z.lxor (Z.lxor (Z.lxor a.[x].[0] a.[x].[1]) a.[x].[2]) a.[x].[3]) a.[x].[4].

Lemma theta_at (st : KeccakState.t) (a : list (list Z)) (x y : Z) :
  shape a -> position (x, y) ->
  (theta st a).[x].[y]
    = Z.lxor a.[x].[y]
        (Z.lxor (column_parity a ((x - 1) mod 5))
                (rol (column_parity a ((x + 1) mod 5)) 1 (KeccakState.lanew st))).
Proof.
  intros Ha [[??] [??]]; cbn [fst snd] in *.
  explode a Ha.
  cases5 x; cases5 y; reflexivity.
Qed.

Lemma chi_at (a b : list (list Z)) (x y : Z) :
  shape a -> position (x, y) ->
  (chi a b).[x].[y]
    = Z.lxor b.[x].[y]
        (Z.land (Z.lnot b.[(x + 1) mod 5].[y]) b.[(x + 2) mod 5].[y]).
Proof.
  intros Ha [[??] [??]]; cbn [fst snd] in *.
  explode a Ha.
  cases5 x; cases5 y; reflexivity.
Qed.

Lemma iota_at (a : list (list Z)) (rc x y : Z) :
  shape a -> position (x, y) ->
  (iota a rc).[x].[y]
    = if (x =? 0) && (y =? 0) then Z.lxor a.[0].[0] rc else a.[x].[y].
Proof.
  intros Ha [[??] [??]]; cbn [fst snd] in *.
  explode a Ha.
  cases5 x; cases5 y; reflexivity.
Qed.

(** X7. Theta, which the code computes by updating the matrix in place
    column by column, XORs into every lane the parity of the column to
    its left and the parity, rotated by one, of the column to its
    right, both taken in the matrix as it was before the step. *)
Theorem theta_lane (st : KeccakState.t) (a : list (list Z)) (x y : Z) :
  shape a -> 1 <= KeccakState.lanew st <= 65 -> position (x, y) ->
  (theta st a).[x].[y]
    = Z.lxor a.[x].[y]
        (Z.lxor (column_parity a ((x - 1) mod 5))
                (rol (column_parity a ((x + 1) mod 5)) 1 (KeccakState.lanew st))).
Proof. intros Ha _ Hxy. by apply theta_at. Qed.

Lemma theta_lane_witness :
  (theta (KeccakState.mk 1088 1600 136 64 KeccakState.zero) KeccakState.zero).[2].[3]
    = Z.lxor KeccakState.zero.[2].[3]
        (Z.lxor (column_parity KeccakState.zero ((2 - 1) mod 5))
                (rol (column_parity KeccakState.zero ((2 + 1) mod 5)) 1 64)).
Proof.
  apply (theta_lane (KeccakState.mk 1088 1600 136 64 KeccakState.zero)
           KeccakState.zero 2 3).
  - apply shape_zero.
  - simpl. lia.
  - split; simpl; lia.
Defined.

(** X8. Chi writes into the matrix [a] only values read from [b]: lane
    [(x, y)] becomes [b[x][y] xor (not b[x+1][y] and b[x+2][y])], with
    the column indices taken modulo 5, whatever [a] held before. *)
Theorem chi_lane (a b : list (list Z)) (x y : Z) :
  shape a -> shape b -> position (x, y) ->
  (chi a b).[x].[y]
    = Z.lxor b.[x].[y]
        (Z.land (Z.lnot b.[(x + 1) mod 5].[y]) b.[(x + 2) mod 5].[y]).
Proof. intros Ha _ Hxy. by apply chi_at. Qed.

Lemma chi_lane_witness :
  (chi KeccakState.zero KeccakState.zero).[4].[1]
    = Z.lxor KeccakState.zero.[4].[1]
        (Z.land (Z.lnot KeccakState.zero.[(4 + 1) mod 5].[1])
                KeccakState.zero.[(4 + 2) mod 5].[1]).
Proof.
  apply (chi_lane KeccakState.zero KeccakState.zero 4 1).
  - apply shape_zero.
  - apply shape_zero.
  - split; simpl; lia.
Defined.

(** X9. Iota XORs the round constant into lane [(0, 0)] and leaves
    every other lane as it is. *)
Theorem iota_lane (a : list (list Z)) (rc x y : Z) :
  shape a -> position (x, y) ->
  (iota a rc).[x].[y]
    = if (x =? 0) && (y =? 0) then Z.lxor a.[0].[0] rc else a.[x].[y].
Proof. intros Ha Hxy. by apply iota_at. Qed.

Lemma iota_lane_witness :
  (iota KeccakState.zero 0x8082).[0].[0] = Z.lxor KeccakState.zero.[0].[0] 0x8082
  /\ (iota KeccakState.zero 0x8082).[3].[0] = KeccakState.zero.[3].[0].
Proof.
  split.
  - apply (iota_lane KeccakState.zero 0x8082 0 0); [apply shape_zero|split; simpl; lia].
  - apply (iota_lane KeccakState.zero 0x8082 3 0); [apply shape_zero|split; simpl; lia].
Defined.

(** ** Lanes stay 64-bit values *)

Lemma lxor_range (u v : Z) :
  0 <= u < 2 ^ 64 -> 0 <= v < 2 ^ 64 -> 0 <= Z.lxor u v < 2 ^ 64.
Proof.
  intros Hu Hv. split.
  - apply Z.lxor_nonneg. lia.
  - apply below_pow2; [lia|apply Z.lxor_nonneg; lia|].
    intros i Hi. rewrite Z.lxor_spec.
    by rewrite (testbit_above u 64 i), (testbit_above v 64 i).
Qed.

Lemma land_lnot_range (u v : Z) :
  0 <= v < 2 ^ 64 -> 0 <= Z.land (Z.lnot u) v < 2 ^ 64.
Proof.
  intros Hv.
  assert (0 <= Z.land (Z.lnot u) v) as Hnn by (apply Z.land_nonneg; lia).
  split; [done|].
  apply below_pow2; [lia|done|].
  intros i Hi. rewrite Z.land_spec, (testbit_above v 64 i) by done.
  apply andb_false_r.
Qed.

Lemma lanes64_of_lanes (m : list (list Z)) :
  shape m -> (forall x y, position (x, y) -> 0 <= m.[x].[y] < 2 ^ 64) -> lanes64 m.
Proof.
  intros Hm Hxy. unfold lanes64. rewrite (shape_eta m Hm).
  apply Forall_fmap, Forall_range5. intros x Hx. cbv [compose].
  apply Forall_fmap, Forall_range5. intros y Hy. cbv [compose].
  by apply Hxy.
Qed.

Lemma column_parity_range (a : list (list Z)) (x : Z) :
  lanes64 a -> 0 <= column_parity a x < 2 ^ 64.
Proof.
  intros Ha. unfold column_parity.
  repeat apply lxor_range; by apply lanes64_index.
Qed.

Section Lanes64.
Variable st : KeccakState.t.
Hypothesis Hlanew : KeccakState.lanew st = 64.

Lemma lanes64_theta (a : list (list Z)) :
  shape a -> lanes64 a -> lanes64 (theta st a).
Proof.
  intros Hs Ha. apply lanes64_of_lanes; [by apply shape_theta|].
  intros x y Hxy. rewrite theta_at, Hlanew by done.
  apply lxor_range; [by apply lanes64_index|].
  apply lxor_range; [by apply column_parity_range|].
  apply rol_range; [by apply column_parity_range|lia].
Qed.

Lemma lanes64_rho_pi (a : list (list Z)) :
  shape a -> lanes64 a -> lanes64 (rho_pi st a).
Proof.
  intros Hs Ha. apply lanes64_of_lanes; [by apply shape_rho_pi|].
  intros x y Hxy.
  destruct (pi_src_dest (x, y) Hxy) as [Hsrc Hdest].
  destruct (pi_src (x, y)) as [x' y'] eqn:Hp.
  pose proof (rho_pi_lane st a x' y' Hs Hsrc) as Hlane.
  rewrite Hdest, Hlanew in Hlane. cbn [fst snd] in Hlane. rewrite Hlane.
  apply rol_range; [by apply lanes64_index|].
  destruct Hsrc as [[??] [??]]; cbn [fst snd] in *.
  cases5 x'; cases5 y'; vm_compute; split; discriminate.
Qed.

Lemma lanes64_chi (a b : list (list Z)) :
  shape a -> lanes64 b -> lanes64 (chi a b).
Proof.
  intros Hs Hb. apply lanes64_of_lanes; [by apply shape_chi|].
  intros x y Hxy. rewrite chi_at by done.
  apply lxor_range; [by apply lanes64_index|].
  apply land_lnot_range. by apply lanes64_index.
Qed.

Lemma lanes64_iota (a : list (list Z)) (rc : Z) :
  shape a -> lanes64 a -> 0 <= rc < 2 ^ 64 -> lanes64 (iota a rc).
Proof.
  intros Hs Ha Hrc. unfold iota.
  apply lanes64_set2; [done|]. apply lxor_range; [|done].
  by apply lanes64_index.
Qed.

Lemma lanes64_keccak_round (a : list (list Z)) (rc : Z) :
  shape a -> lanes64 a -> 0 <= rc < 2 ^ 64 -> lanes64 (keccak_round st a rc).
Proof.
  intros Hs Ha Hrc. unfold keccak_round.
  apply lanes64_iota; [|  |done].
  - apply shape_chi. by apply shape_theta.
  - apply lanes64_chi; [by apply shape_theta|].
    apply lanes64_rho_pi; [by apply shape_theta|by apply lanes64_theta].
Qed.

End Lanes64.

Lemma RoundConstants_range (ir : Z) : 0 <= RoundConstants.[ir] < 2 ^ 64.
Proof.
  apply (index_Forall (fun v => 0 <= v < 2 ^ 64)); [done|].
  unfold RoundConstants. repeat constructor; done.
Qed.

Lemma lanes64_keccak_f (st : KeccakState.t) :
  Keccak256State st -> lanes64 (KeccakState.s st) ->
  lanes64 (KeccakState.s (keccak_f st)).
Proof.
  intros (_ & _ & _ & Hw & Hs) Ha. unfold keccak_f.
  cbn [KeccakState.s KeccakState.set_s].
  apply (foldl_invariant (fun a => shape a /\ lanes64 a)); [|done].
  intros a ir [Hsa Hla]. split.
  - by apply shape_keccak_round.
  - apply lanes64_keccak_round; [done..|apply RoundConstants_range].
Qed.

(** The rounds of Keccak-f[1600], as one fold over the table of round
    constants. *)
Lemma keccak_f_rounds (st : KeccakState.t) :
  KeccakState.lanew st = 64 ->
  KeccakState.s (keccak_f st)
    = foldl (keccak_round st) (KeccakState.s st) RoundConstants.
Proof.
  intros Hw. unfold keccak_f. rewrite Hw.
  cbn [KeccakState.s KeccakState.set_s].
  change (12 + 2 * Z.log2 64) with 24.
  assert (RoundConstants = (fun ir => RoundConstants.[ir]) <$> range 24) as HRC
    by reflexivity.
  symmetry.
  etransitivity;
    [exact (f_equal (foldl (keccak_round st) (KeccakState.s st)) HRC)|].
  by rewrite foldl_fmap.
Qed.

(** X10. On a Keccak-256 state the permutation runs exactly 24 rounds,
    one for each entry of [RoundConstants] in the order of the table;
    it changes the matrix only, and if every lane was a 64-bit value
    before, every lane is one afterwards. *)
Theorem keccak_f_permutes (st : KeccakState.t) :
  Keccak256State st -> lanes64 (KeccakState.s st) ->
  KeccakState.s (keccak_f st)
    = foldl (keccak_round st) (KeccakState.s st) RoundConstants
  /\ length RoundConstants = 24%nat
  /\ Keccak256State (keccak_f st)
  /\ lanes64 (KeccakState.s (keccak_f st)).
Proof.
  intros Hst Ha. split_and!.
  - apply keccak_f_rounds, Hst.
  - reflexivity.
  - by apply Keccak256State_keccak_f.
  - by apply lanes64_keccak_f.
Qed.

Lemma keccak_f_permutes_witness :
  lanes64
    (KeccakState.s (keccak_f (KeccakState.mk 1088 1600 136 64 KeccakState.zero))).
Proof.
  apply (keccak_f_permutes (KeccakState.mk 1088 1600 136 64 KeccakState.zero)).
  - split_and!; try reflexivity. apply shape_zero.
  - apply lanes64_zero.
Defined.

(** ** The output stream *)

(** The state after [k] applications of the permutation. *)
Fixpoint permuted (k : nat) (st : KeccakState.t) : KeccakState.t :=
  match k with
  | O => st
  | S k => permuted k (keccak_f st)
  end.

(** The first [k] output blocks of a state: the rate part of the
    state, then that of the permuted state, and so on. *)
Fixpoint squeeze_blocks (k : nat) (st : KeccakState.t) : list Z :=
  match k with
  | O => []
  | S k => KeccakState.squeeze st ++ squeeze_blocks k (keccak_f st)
  end.

Lemma Keccak256State_permuted (k : nat) :
  forall st, Keccak256State st -> Keccak256State (permuted k st).
Proof.
  induction k as [|k IH]; intros st Hst; [done|].
  cbn [permuted]. by apply IH, Keccak256State_keccak_f.
Qed.

Lemma squeeze_blocks_length (k : nat) :
  forall st, Keccak256State st -> len (squeeze_blocks k st) = 136 * Z.of_nat k.
Proof.
  induction k as [|k IH]; intros st Hst; [done|].
  cbn [squeeze_blocks]. unfold len in *. rewrite length_app.
  destruct (state_squeeze_block st Hst) as [-> _].
  specialize (IH (keccak_f st) (Keccak256State_keccak_f st Hst)). lia.
Qed.

Lemma squeeze_blocks_bytes (k : nat) :
  forall st, Keccak256State st ->
    Forall (fun c => 0 <= c < 256) (squeeze_blocks k st).
Proof.
  induction k as [|k IH]; intros st Hst; [done|].
  cbn [squeeze_blocks]. apply Forall_app. split.
  - by apply state_squeeze_block.
  - by apply IH, Keccak256State_keccak_f.
Qed.

Lemma squeeze_blocks_prefix (k1 : nat) :
  forall k2 st, (k1 <= k2)%nat ->
    exists rest, squeeze_blocks k2 st = squeeze_blocks k1 st ++ rest.
Proof.
  induction k1 as [|k1 IH]; intros k2 st Hk.
  - by exists (squeeze_blocks k2 st).
  - destruct k2 as [|k2]; [lia|].
    destruct (IH k2 (keccak_f st)) as [rest Hrest]; [lia|].
    exists rest. cbn [squeeze_blocks]. by rewrite Hrest, app_assoc.
Qed.

(** The loop of [squeeze]: it appends whole blocks until the output is
    long enough, and stops at the first block count that is. *)
Lemma squeeze_loop_blocks (fuel : nat) :
  forall (n : Z) (out : list Z) (st : KeccakState.t) (pad : Z -> Z -> list Z)
         (buf : list Z),
    Keccak256State st -> n <= len out + Z.of_nat fuel ->
    exists k,
      KeccakSponge.squeeze_loop fuel n out (KeccakSponge.mk st pad keccak_f buf)
        = Ok (out ++ squeeze_blocks k st,
              KeccakSponge.mk (permuted k st) pad keccak_f buf)
      /\ n <= len out + 136 * Z.of_nat k
      /\ ((0 < k)%nat -> len out + 136 * (Z.of_nat k - 1) < n).
Proof.
  induction fuel as [|fuel IH]; intros n out st pad buf Hst Hfuel;
    rewrite squeeze_loop_unfold;
    destruct (Z.ltb_spec (len out) n) as [Hlt|Hge];
    try (exists 0%nat; rewrite app_nil_r; split_and!; [done|lia|lia]).
  - lia.
  - unfold KeccakSponge.squeeze_once. sponge_fields.
    destruct (state_squeeze_block st Hst) as [Hblk _].
    destruct (IH n (out ++ KeccakState.squeeze st) (keccak_f st) pad buf)
      as (k & Hrun & Hk1 & Hk2).
    { by apply Keccak256State_keccak_f. }
    { unfold len in *. rewrite length_app. lia. }
    exists (S k). cbn [squeeze_blocks permuted]. rewrite app_assoc.
    unfold len in *. rewrite length_app in Hk1, Hk2.
    split_and!; [done|lia|].
    intros _. destruct k as [|k]; lia.
Qed.

Lemma blocks_cover (n : Z) :
  0 <= n -> n <= 136 * Z.of_nat (Z.to_nat ((n + 135) / 136)).
Proof.
  intros Hn. rewrite Z2Nat.id by (apply Z.div_pos; lia).
  pose proof (Z.div_mod (n + 135) 136 ltac:(lia)).
  pose proof (Z.mod_pos_bound (n + 135) 136 ltac:(lia)). lia.
Qed.

Lemma squeeze_closed_form (sp : KeccakSponge.t) (n : Z) :
  Keccak256Wiring sp -> 0 <= n ->
  let k := Z.to_nat ((n + 135) / 136) in
  KeccakSponge.squeeze sp n
    = Ok (take (Z.to_nat n) (squeeze_blocks k (KeccakSponge.state sp)),
          KeccakSponge.set_state sp (permuted k (KeccakSponge.state sp))).
Proof.
  intros Hw Hn k. wire sp Hw. unfold KeccakSponge.squeeze. sponge_fields.
  destruct (squeeze_loop_blocks (Z.to_nat n) n [] st multirate_padding buf Hst)
    as (k' & Hrun & Hk1 & Hk2).
  { unfold len. simpl. lia. }
  rewrite Hrun, bind_Ok. cbn [app]. unfold len in Hk1, Hk2. simpl in Hk1, Hk2.
  assert (k' = k) as ->.
  { subst k. apply Nat2Z.inj. rewrite Z2Nat.id by (apply Z.div_pos; lia).
    destruct k' as [|k'].
    - assert (n = 0) as -> by lia. done.
    - apply (Z.div_unique _ _ _ (n + 135 - 136 * Z.of_nat (S k'))); lia. }
  unfold upto, bound.
  destruct (Z.ltb_spec n 0); [lia|]. done.
Qed.

(** X11. [squeeze] in closed form, for every non-negative length [n]:
    it applies the permutation once for each started block of 136
    bytes, that is [ceil(n / 136)] times, and returns the first [n]
    bytes of the blocks read off the successive states; those are
    exactly [n] bytes, each in [0, 255], and the buffer is not
    touched. *)
Theorem squeeze_stream (sp : KeccakSponge.t) (n : Z) :
  Keccak256Wiring sp -> 0 <= n ->
  let k := Z.to_nat ((n + 135) / 136) in
  exists out sp',
    KeccakSponge.squeeze sp n = Ok (out, sp')
    /\ out = take (Z.to_nat n) (squeeze_blocks k (KeccakSponge.state sp))
    /\ KeccakSponge.state sp' = permuted k (KeccakSponge.state sp)
    /\ KeccakSponge.buffer sp' = KeccakSponge.buffer sp
    /\ len out = n
    /\ Forall (fun c => 0 <= c < 256) out.
Proof.
  intros Hw Hn k. do 2 eexists.
  split; [by apply squeeze_closed_form|].
  pose proof Hw as (Hst & _).
  split_and!; try done.
  - unfold len. rewrite length_take. subst k.
    pose proof (squeeze_blocks_length (Z.to_nat ((n + 135) / 136)) _ Hst) as Hlen.
    pose proof (blocks_cover n Hn). unfold len in Hlen. lia.
  - by apply Forall_take, squeeze_blocks_bytes.
Qed.

Lemma squeeze_stream_witness :
  let k := Z.to_nat ((300 + 135) / 136) in
  exists out sp',
    KeccakSponge.squeeze sponge0 300 = Ok (out, sp')
    /\ out = take (Z.to_nat 300) (squeeze_blocks k (KeccakSponge.state sponge0))
    /\ KeccakSponge.state sp' = permuted k (KeccakSponge.state sponge0)
    /\ KeccakSponge.buffer sp' = KeccakSponge.buffer sponge0
    /\ len out = 300
    /\ Forall (fun c => 0 <= c < 256) out.
Proof.
  apply (squeeze_stream sponge0 300).
  - apply Keccak256Sponge_wiring, Keccak256Sponge_sponge0.
  - lia.
Defined.

(** X12. A shorter request returns a prefix of what a longer request
    returns from the same sponge: for [n <= m], of whatever sign, the
    output of [squeeze n] is the first [n] bytes of the output of
    [squeeze m]. *)
Theorem squeeze_prefix_consistent (sp : KeccakSponge.t) (n m : Z) :
  Keccak256Wiring sp -> n <= m ->
  exists o1 o2 sp1 sp2,
    KeccakSponge.squeeze sp n = Ok (o1, sp1)
    /\ KeccakSponge.squeeze sp m = Ok (o2, sp2)
    /\ o1 = take (Z.to_nat n) o2.
Proof.
  intros Hw Hnm.
  destruct (Z_le_gt_dec n 0) as [Hn|Hn].
  - destruct (Z_le_gt_dec m 0) as [Hm|Hm].
    + exists [], [], sp, sp.
      by rewrite !sponge_squeeze_nonpositive, take_nil by done.
    + do 4 eexists. rewrite sponge_squeeze_nonpositive by done.
      split_and!; [done|apply squeeze_closed_form; [done|lia]|].
      replace (Z.to_nat n) with 0%nat by lia. done.
  - do 4 eexists.
    split_and!; [apply squeeze_closed_form; [done|lia]
                |apply squeeze_closed_form; [done|lia]|].
    pose proof Hw as (Hst & _).
    set (k1 := Z.to_nat ((n + 135) / 136)).
    set (k2 := Z.to_nat ((m + 135) / 136)).
    assert (k1 <= k2)%nat as Hk.
    { subst k1 k2. apply Z2Nat.inj_le; try (apply Z.div_pos; lia).
      apply Z.div_le_mono; lia. }
    destruct (squeeze_blocks_prefix k1 k2 (KeccakSponge.state sp) Hk)
      as [rest Hrest].
    rewrite take_take, Hrest.
    replace (Z.to_nat n `min` Z.to_nat m)%nat with (Z.to_nat n) by lia.
    rewrite take_app_le; [done|].
    pose proof (squeeze_blocks_length k1 _ Hst) as Hlen. unfold len in Hlen.
    pose proof (blocks_cover n ltac:(lia)). fold k1 in H. lia.
Qed.

Lemma squeeze_prefix_consistent_witness :
  exists o1 o2 sp1 sp2,
    KeccakSponge.squeeze sponge0 32 = Ok (o1, sp1)
    /\ KeccakSponge.squeeze sponge0 200 = Ok (o2, sp2)
    /\ o1 = take (Z.to_nat 32) o2.
Proof.
  apply (squeeze_prefix_consistent sponge0 32 200).
  - apply Keccak256Sponge_wiring, Keccak256Sponge_sponge0.
  - lia.
Defined.

(** ** Absorbing *)

(** The result of the loop of [absorb] does not depend on the fuel. *)
Lemma absorb_loop_fuel (st : KeccakState.t) (pad : Z -> Z -> list Z)
    (buf : list Z) (fuel1 fuel2 : nat) :
  Keccak256State st -> (length buf <= fuel1)%nat -> (length buf <= fuel2)%nat ->
  KeccakSponge.absorb_loop fuel1 (KeccakSponge.mk st pad keccak_f buf)
    = KeccakSponge.absorb_loop fuel2 (KeccakSponge.mk st pad keccak_f buf).
Proof.
  intros Hst H1 H2.
  destruct (absorb_loop_total _ st pad buf Hst (le_n _)) as (st' & buf' & _ & _ & Hrun).
  by rewrite !Hrun.
Qed.

(** X13. [absorb] by cases on the bytes at hand, the buffer followed
    by the new data.  Less than a block: they become the buffer and
    the state is not touched.  A block or more: the first 136 bytes
    are absorbed as one block, and the rest is absorbed by a sponge
    whose buffer is empty. *)
Theorem absorb_by_blocks (sp : KeccakSponge.t) (data : list Z) :
  Keccak256Wiring sp ->
  (len (KeccakSponge.buffer sp ++ data) < 136 ->
   KeccakSponge.absorb sp data
     = Ok (KeccakSponge.set_buffer sp (KeccakSponge.buffer sp ++ data)))
  /\ (136 <= len (KeccakSponge.buffer sp ++ data) ->
      KeccakSponge.absorb sp data
        = (sp1 ← KeccakSponge.absorb_block sp
                   (take 136 (KeccakSponge.buffer sp ++ data));
           KeccakSponge.absorb (KeccakSponge.set_buffer sp1 [])
             (drop 136 (KeccakSponge.buffer sp ++ data)))).
Proof.
  intros Hw. wire sp Hw. unfold KeccakSponge.absorb. sponge_fields.
  unfold len. split; intros Hlen.
  - apply absorb_loop_exit; [done|lia].
  - destruct (absorb_block_ok st (take 136 (buf ++ data))) as (st' & Hst' & Hblk);
      [done | unfold len; rewrite length_take; lia |].
    destruct (absorb_loop_step st (buf ++ data) Hst) as (st1 & _ & Hblk1 & Hstep);
      [lia|].
    specialize (Hblk1 multirate_padding []). rewrite Hblk in Hblk1.
    injection Hblk1 as <-.
    rewrite Hblk, bind_Ok. sponge_fields. cbn [app].
    destruct (length (buf ++ data)) as [|fuel] eqn:Hfuel; [lia|].
    specialize (Hstep multirate_padding [] fuel). rewrite !app_nil_r in Hstep.
    rewrite Hstep. apply absorb_loop_fuel; [done|rewrite length_drop; lia|done].
Qed.

Lemma absorb_by_blocks_witness :
  KeccakSponge.absorb sponge0 (replicate 300 0x61)
    = (sp1 ← KeccakSponge.absorb_block sponge0
               (take 136 (KeccakSponge.buffer sponge0 ++ replicate 300 0x61));
       KeccakSponge.absorb (KeccakSponge.set_buffer sp1 [])
         (drop 136 (KeccakSponge.buffer sponge0 ++ replicate 300 0x61))).
Proof.
  apply (absorb_by_blocks sponge0 (replicate 300 0x61)).
  - apply Keccak256Sponge_wiring, Keccak256Sponge_sponge0.
  - unfold len. simpl. lia.
Defined.

(** The buffer left by the loop of [absorb] is what remains of the
    buffer after its whole blocks. *)
Lemma absorb_loop_remainder (n : nat) :
  forall (st : KeccakState.t) (pad : Z -> Z -> list Z) (buf : list Z),
    Keccak256State st -> (length buf <= n)%nat ->
    exists st',
      Keccak256State st'
      /\ forall fuel, (length buf <= fuel)%nat ->
           KeccakSponge.absorb_loop fuel (KeccakSponge.mk st pad keccak_f buf)
             = Ok (KeccakSponge.mk st' pad keccak_f
                     (drop (136 * (length buf / 136)) buf)).
Proof.
  induction n as [|n IH]; intros st pad buf Hst Hn.
  - exists st. split; [done|]. intros fuel _.
    rewrite Nat.div_small, Nat.mul_0_r, drop_0 by lia.
    apply absorb_loop_exit; [done|lia].
  - destruct (decide (length buf < 136)%nat) as [Hlt|Hge].
    + exists st. split; [done|]. intros fuel _.
      rewrite Nat.div_small, Nat.mul_0_r, drop_0 by lia.
      by apply absorb_loop_exit.
    + destruct (absorb_loop_step st buf Hst) as (st1 & Hst1 & _ & Hstep); [lia|].
      destruct (IH st1 pad (drop 136 buf) Hst1) as (st' & Hst' & Hrun).
      { rewrite length_drop. lia. }
      exists st'. split; [done|].
      intros [|fuel] Hfuel; [lia|].
      specialize (Hstep pad [] fuel). rewrite !app_nil_r in Hstep.
      rewrite Hstep, Hrun by (rewrite length_drop; lia).
      rewrite drop_drop, length_drop. do 3 f_equal.
      pose proof (Nat.div_mod_eq (length buf) 136) as Hdm.
      pose proof (Nat.mod_upper_bound (length buf) 136 ltac:(lia)) as Hmod.
      assert ((length buf - 136) / 136 = length buf / 136 - 1)%nat as ->; [|lia].
      symmetry. apply (Nat.div_unique _ _ _ (length buf mod 136)); lia.
Qed.

(** X14. After [absorb] the buffer holds the bytes that did not fill
    a block: with [all] the old buffer followed by the data, the new
    buffer is [all] without its first [136 * (len all // 136)] bytes,
    so its length is [len all mod 136]. *)
Theorem absorb_buffer_remainder (sp : KeccakSponge.t) (data : list Z) :
  Keccak256Wiring sp ->
  exists sp',
    KeccakSponge.absorb sp data = Ok sp'
    /\ KeccakSponge.buffer sp'
         = drop (136 * (length (KeccakSponge.buffer sp ++ data) / 136))
             (KeccakSponge.buffer sp ++ data)
    /\ len (KeccakSponge.buffer sp')
         = len (KeccakSponge.buffer sp ++ data) mod 136.
Proof.
  intros Hw. wire sp Hw. unfold KeccakSponge.absorb. sponge_fields.
  destruct (absorb_loop_remainder _ st multirate_padding (buf ++ data) Hst (le_n _))
    as (st' & Hst' & Hrun).
  rewrite Hrun by done. eexists. split; [done|]. sponge_fields.
  split; [done|].
  unfold len. rewrite length_drop.
  pose proof (Nat.div_mod_eq (length (buf ++ data)) 136) as Hdm.
  rewrite <- (Nat2Z.inj_mod _ 136). lia.
Qed.

Lemma absorb_buffer_remainder_witness :
  exists sp',
    KeccakSponge.absorb sponge0 (replicate 300 0x61) = Ok sp'
    /\ KeccakSponge.buffer sp'
         = drop (136 * (length (KeccakSponge.buffer sponge0 ++ replicate 300 0x61) / 136))
             (KeccakSponge.buffer sponge0 ++ replicate 300 0x61)
    /\ len (KeccakSponge.buffer sp')
         = len (KeccakSponge.buffer sponge0 ++ replicate 300 0x61) mod 136.
Proof.
  apply (absorb_buffer_remainder sponge0 (replicate 300 0x61)).
  apply Keccak256Sponge_wiring, Keccak256Sponge_sponge0.
Defined.

(** ** Bytes in, 64-bit lanes kept *)

Lemma state_absorb_lanes64 (st st' : KeccakState.t) (block : list Z) :
  Keccak256State st -> lanes64 (KeccakState.s st) ->
  Forall (fun c => 0 <= c < 256) block ->
  KeccakState.absorb st block = Ok st' ->
  Keccak256State st' /\ lanes64 (KeccakState.s st').
Proof.
  intros Hst Ha Hblock Habs.
  destruct (Z.eq_dec (len block) 136) as [Hlen|Hne].
  2:{ rewrite state_absorb_wrong_length in Habs; [done|].
      destruct Hst as (_ & _ & -> & _). done. }
  destruct (Keccak256State_absorb st block Hst Hlen) as (st1 & Habs1 & Hst1).
  rewrite Habs in Habs1. injection Habs1 as <-. split; [done|].
  pose proof Hst as (_ & _ & _ & _ & Hs).
  apply lanes64_of_lanes; [apply Hst1|].
  intros x y Hxy. rewrite (state_absorb_lanes st st' block x y Hs Hxy Habs).
  apply lxor_range; [by apply lanes64_index|].
  match goal with |- _ <= KeccakState.bytes2lane ?l < _ => set (lane_bytes := l) end.
  assert (Forall (fun c => 0 <= c < 256) lane_bytes) as Hbytes.
  { apply Forall_take, Forall_drop, Forall_app. split; [done|].
    apply Forall_replicate. lia. }
  pose proof (bytes2lane_range lane_bytes Hbytes) as Hr.
  assert (len lane_bytes <= 8) as Hl.
  { unfold len, lane_bytes, slice. rewrite length_take. lia. }
  assert (2 ^ (8 * len lane_bytes) <= 2 ^ 64); [|lia].
  apply Z.pow_le_mono_r; unfold len in *; lia.
Qed.

Lemma absorb_block_lanes64 (st : KeccakState.t) (pad : Z -> Z -> list Z)
    (buf block : list Z) (sp' : KeccakSponge.t) :
  Keccak256State st -> lanes64 (KeccakState.s st) ->
  Forall (fun c => 0 <= c < 256) block ->
  KeccakSponge.absorb_block (KeccakSponge.mk st pad keccak_f buf) block = Ok sp' ->
  exists st',
    sp' = KeccakSponge.mk st' pad keccak_f buf
    /\ Keccak256State st' /\ lanes64 (KeccakState.s st').
Proof.
  intros Hst Ha Hblock. unfold KeccakSponge.absorb_block. sponge_fields.
  destruct (assert _); try done. cbn [mbind result_bind].
  destruct (KeccakState.absorb st block) as [st1| | |] eqn:Habs; try done.
  cbn [mbind result_bind]. intros [= <-].
  destruct (state_absorb_lanes64 st st1 block Hst Ha Hblock Habs) as [Hst1 Ha1].
  eexists. split; [done|]. split.
  - by apply Keccak256State_keccak_f.
  - by apply lanes64_keccak_f.
Qed.

Lemma absorb_loop_lanes64 (fuel : nat) :
  forall (st : KeccakState.t) (pad : Z -> Z -> list Z) (buf : list Z)
         (sp' : KeccakSponge.t),
    Keccak256State st -> lanes64 (KeccakState.s st) ->
    Forall (fun c => 0 <= c < 256) buf ->
    KeccakSponge.absorb_loop fuel (KeccakSponge.mk st pad keccak_f buf) = Ok sp' ->
    lanes64 (KeccakState.s (KeccakSponge.state sp'))
    /\ Forall (fun c => 0 <= c < 256) (KeccakSponge.buffer sp').
Proof.
  induction fuel as [|fuel IH]; intros st pad buf sp' Hst Ha Hbuf;
    rewrite absorb_loop_unfold; sponge_fields;
    destruct (_ >=? _); try done; try (by intros [= <-]).
  destruct (KeccakSponge.absorb_block _ _) as [sp1| | |] eqn:Hblk; try done.
  cbn [mbind result_bind].
  apply absorb_block_lanes64 in Hblk as (st1 & -> & Hst1 & Ha1);
    [|done|done|by apply Forall_take].
  sponge_fields. apply IH; [done..|]. by apply Forall_drop.
Qed.

(** X15. Fed with bytes, a Keccak-256 sponge keeps every lane of its
    state a 64-bit value and every element of its buffer a byte, and
    so does the final padded block. *)
Theorem absorb_keeps_lanes64 (sp : KeccakSponge.t) (data : list Z) :
  Keccak256Sponge sp -> lanes64 (KeccakState.s (KeccakSponge.state sp)) ->
  Forall (fun c => 0 <= c < 256) (KeccakSponge.buffer sp) ->
  Forall (fun c => 0 <= c < 256) data ->
  (exists sp',
     KeccakSponge.absorb sp data = Ok sp'
     /\ Keccak256Sponge sp'
     /\ lanes64 (KeccakState.s (KeccakSponge.state sp'))
     /\ Forall (fun c => 0 <= c < 256) (KeccakSponge.buffer sp'))
  /\ (exists sp'',
        KeccakSponge.absorb_final sp = Ok sp''
        /\ Keccak256Wiring sp''
        /\ lanes64 (KeccakState.s (KeccakSponge.state sp''))).
Proof.
  intros Hsp Ha Hbuf Hdata. split.
  - destruct (absorb_total sp data (Keccak256Sponge_wiring sp Hsp))
      as (sp' & Habs & Hsp').
    exists sp'. split_and!; [done..| |];
      apply Keccak256Sponge_wiring in Hsp; wire sp Hsp;
      unfold KeccakSponge.absorb in Habs; revert Habs; sponge_fields; intros Habs;
      apply absorb_loop_lanes64 in Habs as [??]; try done;
      by apply Forall_app.
  - destruct (absorb_final_total sp Hsp) as (st' & Hst' & Hfin).
    eexists. split; [done|]. split; [done|]. sponge_fields.
    pose proof Hsp as (_ & _ & _ & Hlen).
    apply Keccak256Sponge_wiring in Hsp. wire sp Hsp.
    revert Hfin. unfold KeccakSponge.absorb_final. sponge_fields.
    destruct (KeccakSponge.absorb_block _ _) as [sp1| | |] eqn:Hblk; try done.
    cbn [mbind result_bind]. sponge_fields.
    apply absorb_block_lanes64 in Hblk as (st1 & -> & Hst1 & Ha1); try done.
    + sponge_fields. by intros [= <-].
    + apply Forall_app. split; [done|]. apply multirate_padding_bytes.
Qed.

Lemma absorb_keeps_lanes64_witness :
  exists sp',
    KeccakSponge.absorb sponge0 (replicate 300 0x61) = Ok sp'
    /\ Keccak256Sponge sp'
    /\ lanes64 (KeccakState.s (KeccakSponge.state sp'))
    /\ Forall (fun c => 0 <= c < 256) (KeccakSponge.buffer sp').
Proof.
  apply (absorb_keeps_lanes64 sponge0 (replicate 300 0x61)).
  - apply Keccak256Sponge_sponge0.
  - apply lanes64_zero.
  - apply Forall_nil_2.
  - apply Forall_replicate. lia.
Defined.

(** X16. [absorb_final] relies on the buffer being shorter than a
    block: on a sponge whose buffer holds a block or more, the padded
    buffer is longer than a block, for every rate of at least one
    byte, and the call raises [AssertionError]. *)
Theorem absorb_final_overfull (sp : KeccakSponge.t) :
  KeccakSponge.padfn sp = multirate_padding ->
  1 <= KeccakState.bitrate_bytes (KeccakSponge.state sp)
    <= len (KeccakSponge.buffer sp) ->
  KeccakSponge.absorb_final sp = Raise AssertionError.
Proof.
  intros Hpad Hlen. unfold KeccakSponge.absorb_final.
  rewrite absorb_block_wrong_length; [done|].
  rewrite Hpad. unfold len in *. rewrite length_app.
  set (r := KeccakState.bitrate_bytes (KeccakSponge.state sp)) in *.
  set (used := Z.of_nat (length (KeccakSponge.buffer sp))) in *.
  unfold multirate_padding, times.
  destruct (Z.eqb_spec (r - used) 0).
  - destruct (Z.eqb_spec r 1).
    + simpl. lia.
    + rewrite length_app, length_app, length_replicate. simpl. lia.
  - destruct (Z.eqb_spec (r - used) 1); [lia|].
    rewrite length_app, length_app, length_replicate. simpl. lia.
Qed.

Lemma absorb_final_overfull_witness :
  KeccakSponge.absorb_final (KeccakSponge.set_buffer sponge0 (replicate 136 0x61))
    = Raise AssertionError.
Proof.
  apply (absorb_final_overfull
           (KeccakSponge.set_buffer sponge0 (replicate 136 0x61))).
  - reflexivity.
  - unfold len. simpl. lia.
Defined.

(** ** Bytes out *)

Lemma byte_of_int_inv (v : Z) (c : byte) :
  KeccakState.byte_of_int v = Ok c -> Z.of_N (Byte.to_N c) = v.
Proof.
  unfold KeccakState.byte_of_int.
  destruct (Z.leb_spec 0 v); [|done]. destruct (Z.ltb_spec v 256); [|done].
  cbn [andb]. destruct (Byte.of_N (Z.to_N v)) as [c'|] eqn:Hc; [|done].
  intros [= <-]. apply Byte.to_of_N in Hc. lia.
Qed.

Lemma byte_of_int_out_of_range (v : Z) :
  ~ 0 <= v < 256 -> KeccakState.byte_of_int v = Raise ValueError.
Proof.
  intros Hv. unfold KeccakState.byte_of_int.
  destruct (Z.leb_spec 0 v); [|done]. destruct (Z.ltb_spec v 256); [lia|done].
Qed.

Lemma byte_of_int_of_byte (c : byte) :
  KeccakState.byte_of_int (Z.of_N (Byte.to_N c)) = Ok c.
Proof.
  unfold KeccakState.byte_of_int.
  pose proof (Byte.to_N_bounded c) as Hc.
  destruct (Z.leb_spec 0 (Z.of_N (Byte.to_N c))); [|lia].
  destruct (Z.ltb_spec (Z.of_N (Byte.to_N c)) 256); [|lia].
  cbn [andb]. by rewrite N2Z.id, Byte.of_to_N.
Qed.

Lemma ilist2bytes_cons (v : Z) (bb : list Z) :
  KeccakState.ilist2bytes (v :: bb)
    = (c ← KeccakState.byte_of_int v;
       out ← KeccakState.ilist2bytes bb;
       Ok (c :: out)).
Proof. reflexivity. Qed.

(** X18. [ilist2bytes] returns the list as bytes exactly when every
    element is in [range(256)], and then the bytes have the elements
    as their values; otherwise it raises [ValueError].  The values of
    a byte string convert back to the byte string. *)
Theorem ilist2bytes_checks (bb : list Z) (d : list byte) :
  (Forall (fun c => 0 <= c < 256) bb ->
   exists out,
     KeccakState.ilist2bytes bb = Ok out /\ KeccakHash.list_of_bytes out = bb)
  /\ (~ Forall (fun c => 0 <= c < 256) bb ->
      KeccakState.ilist2bytes bb = Raise ValueError)
  /\ KeccakState.ilist2bytes (KeccakHash.list_of_bytes d) = Ok d.
Proof.
  split_and!.
  - induction 1 as [|v bb Hv _ (out & IH & Hout)]; [by exists []|].
    destruct (byte_of_int_ok v Hv) as (c & Hc).
    exists (c :: out). rewrite ilist2bytes_cons, Hc, bind_Ok, IH, bind_Ok.
    split; [done|]. unfold KeccakHash.list_of_bytes in *.
    rewrite fmap_cons, Hout. f_equal. by apply byte_of_int_inv.
  - induction bb as [|v bb IH]; intros Hnot.
    + destruct Hnot. constructor.
    + rewrite ilist2bytes_cons.
      destruct (decide (0 <= v < 256)) as [Hv|Hv].
      * destruct (byte_of_int_ok v Hv) as (c & ->). rewrite bind_Ok.
        rewrite IH; [done|]. intros Hbb. apply Hnot. by constructor.
      * by rewrite byte_of_int_out_of_range.
  - induction d as [|c d IH]; [done|].
    unfold KeccakHash.list_of_bytes in *. rewrite fmap_cons, ilist2bytes_cons.
    by rewrite byte_of_int_of_byte, bind_Ok, IH, bind_Ok.
Qed.

Lemma ilist2bytes_checks_witness :
  (exists out,
     KeccakState.ilist2bytes [0; 127; 255] = Ok out
     /\ KeccakHash.list_of_bytes out = [0; 127; 255])
  /\ KeccakState.ilist2bytes [0; 256] = Raise ValueError.
Proof.
  split.
  - apply (proj1 (ilist2bytes_checks [0; 127; 255] [])).
    repeat constructor; lia.
  - apply (proj1 (proj2 (ilist2bytes_checks [0; 256] []))).
    intros H. apply Forall_cons in H as [_ H]. apply Forall_cons in H as [H _]. lia.
Defined.

(** A character of a lowercase hexadecimal numeral. *)
Definition hex_char (c : ascii) : bool :=
  existsb (Ascii.eqb c) (list_ascii_of_string "0123456789abcdef").

Lemma hex_digit_char (n : N) : hex_char (KeccakHash.hex_digit n) = true.
Proof.
  destruct n as [|p]; [reflexivity|].
  repeat match goal with
         | q : positive |- _ => destruct q; try reflexivity
         end.
Qed.

Lemma hex_length (bs : list byte) :
  String.length (KeccakHash.hex bs) = (2 * length bs)%nat.
Proof.
  induction bs as [|c bs IH]; [done|].
  cbn [KeccakHash.hex foldr String.length length].
  fold (KeccakHash.hex bs). rewrite IH. lia.
Qed.

Lemma hex_chars (bs : list byte) :
  forallb hex_char (list_ascii_of_string (KeccakHash.hex bs)) = true.
Proof.
  induction bs as [|c bs IH]; [done|].
  cbn [KeccakHash.hex foldr list_ascii_of_string forallb].
  fold (KeccakHash.hex bs). by rewrite !hex_digit_char, IH.
Qed.

(** X17. [keccak256_hex], and [hexdigest] on a session fed with the
    same data, return the rendering of the bytes that [keccak256]
    returns: 64 characters, each one of [0123456789abcdef]. *)
Theorem hexdigest_renders_digest (data : list byte) (σ : Store.t) :
  exists d σ',
    keccak256 data σ = Ok (d, σ')
    /\ keccak256_hex data σ = Ok (KeccakHash.hex d, σ')
    /\ ('(h, σ1) ← KeccakHash.init σ;
        '(_, σ2) ← KeccakHash.update h data σ1;
        KeccakHash.hexdigest h σ2) = Ok (KeccakHash.hex d, σ')
    /\ String.length (KeccakHash.hex d) = 64%nat
    /\ forallb hex_char (list_ascii_of_string (KeccakHash.hex d)) = true.
Proof.
  destruct (keccak256_spec data σ) as (sp & d & final & _ & _ & _ & Hlen & Hrun).
  exists d, (σ ++ [sp] ++ [final]). split_and!.
  - done.
  - unfold keccak256_hex. by rewrite Hrun, bind_Ok.
  - unfold keccak256 in Hrun. rewrite hash_init, bind_Ok in Hrun.
    rewrite hash_init, bind_Ok.
    destruct (KeccakHash.update _ _ _) as [[[] σ2]| | |]; try done.
    rewrite bind_Ok in Hrun. rewrite bind_Ok. unfold KeccakHash.hexdigest.
    by rewrite Hrun, bind_Ok.
  - by rewrite hex_length, Hlen.
  - apply hex_chars.
Qed.

(** ** Sessions and the store *)

(** X19. [keccak256] depends on its argument only: called on any two
    stores it returns the same bytes, and it returns each store with
    two new objects at its end, the sponge of the session and the copy
    made by [digest], every object that was there being left as it
    was. *)
Theorem keccak256_store_independent (data : list byte) (σ1 σ2 : Store.t) :
  exists d new1 new2,
    keccak256 data σ1 = Ok (d, σ1 ++ new1)
    /\ keccak256 data σ2 = Ok (d, σ2 ++ new2)
    /\ length new1 = 2%nat /\ length new2 = 2%nat.
Proof.
  destruct (keccak256_spec data σ1) as (sp1 & d1 & f1 & Habs1 & _ & Hd1 & _ & Hrun1).
  destruct (keccak256_spec data σ2) as (sp2 & d2 & f2 & Habs2 & _ & Hd2 & _ & Hrun2).
  rewrite Habs1 in Habs2. injection Habs2 as <-.
  rewrite Hd1 in Hd2. injection Hd2 as <-.
  by exists d1, ([sp1] ++ [f1]), ([sp1] ++ [f2]).
Qed.

(** X20. [update] with the empty byte string changes nothing: the
    store it returns is the store it was given. *)
Theorem update_empty (h : KeccakHash.t) (σ : Store.t) (sp : KeccakSponge.t) :
  σ !! KeccakHash.sponge h = Some sp -> Keccak256Sponge sp ->
  KeccakHash.update h [] σ = Ok (tt, σ).
Proof.
  intros Hr Hsp.
  destruct (update_spec h σ sp [] Hr Hsp) as (sp' & Habs & _ & Hupd).
  change (KeccakHash.list_of_bytes []) with (@nil Z) in Habs.
  rewrite absorb_nil in Habs by done. injection Habs as <-.
  by rewrite Hupd, list_insert_id.
Qed.

Lemma update_empty_witness :
  KeccakHash.update (KeccakHash.mk 256 0 32 136) [] [sponge0] = Ok (tt, [sponge0]).
Proof.
  apply (update_empty (KeccakHash.mk 256 0 32 136) [sponge0] sponge0).
  - reflexivity.
  - apply Keccak256Sponge_sponge0.
Defined.

(** X21. Two sessions do not share a sponge: feeding one of them any
    data leaves the other able to return the digest of the empty
    message. *)
Theorem sessions_independent (a : list byte) (σ0 : Store.t) :
  exists h1 σ1 h2 σ2 σ3 d σ4 σ5,
    KeccakHash.init σ0 = Ok (h1, σ1)
    /\ KeccakHash.init σ1 = Ok (h2, σ2)
    /\ KeccakHash.sponge h1 <> KeccakHash.sponge h2
    /\ KeccakHash.update h1 a σ2 = Ok (tt, σ3)
    /\ σ3 !! KeccakHash.sponge h2 = σ2 !! KeccakHash.sponge h2
    /\ KeccakHash.digest h2 σ3 = Ok (d, σ4)
    /\ keccak256 [] σ0 = Ok (d, σ5).
Proof.
  set (h1 := KeccakHash.mk 256 (length σ0) 32 136).
  set (σ1 := σ0 ++ [sponge0]).
  set (h2 := KeccakHash.mk 256 (length σ1) 32 136).
  set (σ2 := σ1 ++ [sponge0]).
  assert (length σ1 = S (length σ0)) as Hlen1.
  { unfold σ1. rewrite length_app. simpl. lia. }
  assert (σ2 !! KeccakHash.sponge h1 = Some sponge0) as Hr1.
  { unfold σ2, σ1. simpl. rewrite lookup_app_l by (rewrite length_app; simpl; lia).
    by apply list_lookup_middle. }
  assert (σ2 !! KeccakHash.sponge h2 = Some sponge0) as Hr2.
  { unfold σ2. simpl. by apply list_lookup_middle. }
  destruct (update_spec h1 σ2 sponge0 a Hr1 Keccak256Sponge_sponge0)
    as (sp' & _ & _ & Hupd).
  set (σ3 := <[KeccakHash.sponge h1 := sp']> σ2) in *.
  assert (σ3 !! KeccakHash.sponge h2 = Some sponge0) as Hr3.
  { unfold σ3. rewrite list_lookup_insert_ne; [done|]. simpl. lia. }
  destruct (digest_spec h2 σ3 sponge0 Hr3 Keccak256Sponge_sponge0 eq_refl)
    as (d & final & Hd & _ & Hdig).
  destruct (keccak256_spec [] σ0) as (sp & d' & final' & Habs & _ & Hd' & _ & Hrun).
  change (KeccakHash.list_of_bytes []) with (@nil Z) in Habs.
  rewrite absorb_nil in Habs by apply Keccak256Sponge_sponge0.
  injection Habs as <-. rewrite Hd in Hd'. injection Hd' as <-.
  exists h1, σ1, h2, σ2, σ3, d, (σ3 ++ [final]), (σ0 ++ [sponge0] ++ [final']).
  split_and!.
  - apply hash_init.
  - apply hash_init.
  - simpl. lia.
  - exact Hupd.
  - by rewrite Hr3, Hr2.
  - exact Hdig.
  - exact Hrun.
Qed.
